(** * Session-state persistence and the turtle-graphics panel

    A shallow embedding of [editor/static/scripts/state_handler.js] (the
    session-state registry and its IndexedDB persistence) and of the
    turtle-graphics panel controller ([register]), with the properties of
    the two components stated and proved over the embedding.

    The asynchronous parts of the source (IndexedDB requests, transaction
    completion) are modelled by an explicit task queue: a call of
    [saveState] or [loadState] runs its synchronous part and leaves the
    pending requests in the queue; [run] plays the browser's event loop. *)

From Stdlib Require Import QArith DecimalString.
From stdpp Require Import gmap strings list fin_maps.

Open Scope string_scope.
Open Scope list_scope.

(** ** JavaScript values *)

(** A JavaScript number, as far as the code distinguishes numbers: the only
    test either file makes on a number is [isNaN]. Arithmetic is never done
    on them, so a rational stands for every number that is one. *)
Inductive number : Type :=
| NaN
| Num (q : Q).

(** The values held by the registry: the JSON-like data of session states
    ([undefined] included, see [test_results]). An object is the list of
    its own enumerable properties in insertion order. *)
#[local] Unset Elimination Schemes.
Inductive jsval : Type :=
| JUndefined
| JNull
| JBool (b : bool)
| JNum (n : number)
| JStr (s : string)
| JArr (elems : list jsval)
| JObj (props : list (string * jsval)).
#[local] Set Elimination Schemes.

(** Induction over values, through the lists an array and an object hold. *)
Section jsval_induction.
Variable P : jsval -> Prop.
Hypothesis Hundefined : P JUndefined.
Hypothesis Hnull : P JNull.
Hypothesis Hbool : forall b, P (JBool b).
Hypothesis Hnum : forall n, P (JNum n).
Hypothesis Hstr : forall s, P (JStr s).
Hypothesis Harr : forall elems, Forall P elems -> P (JArr elems).
Hypothesis Hobj : forall props, Forall (fun kv => P (snd kv)) props -> P (JObj props).

Fixpoint jsval_ind (v : jsval) : P v :=
  match v with
  | JUndefined => Hundefined
  | JNull => Hnull
  | JBool b => Hbool b
  | JNum n => Hnum n
  | JStr s => Hstr s
  | JArr elems =>
      Harr elems
        ((fix all (l : list jsval) : Forall P l :=
            match l with
            | [] => List.Forall_nil P
            | x :: rest => List.Forall_cons P x rest (jsval_ind x) (all rest)
            end) elems)
  | JObj props =>
      Hobj props
        ((fix all (l : list (string * jsval)) : Forall (fun kv => P (snd kv)) l :=
            match l with
            | [] => List.Forall_nil _
            | kv :: rest => List.Forall_cons _ kv rest (jsval_ind (snd kv)) (all rest)
            end) props)
  end.
End jsval_induction.

(** The exceptions the modelled code can meet. *)
Inductive error : Type :=
| TypeError
| NotFoundError
| DataError
| ConstraintError
| ReadOnlyError
| InvalidStateError.

Inductive result (A : Type) : Type :=
| Ok (a : A)
| Throw (e : error).
Arguments Ok {A} a.
Arguments Throw {A} e.

Definition is_undefined (v : jsval) : bool :=
  match v with JUndefined => true | _ => false end.

(** [o[name]] on the property list of an object; a missing property reads
    as [undefined]. *)
Fixpoint get_field (name : string) (props : list (string * jsval)) : jsval :=
  match props with
  | [] => JUndefined
  | (k, v) :: rest => if String.eqb k name then v else get_field name rest
  end.

(** [o[name] = v]: an existing property keeps its place, a new one is added
    at the end. *)
Fixpoint set_field (name : string) (v : jsval) (props : list (string * jsval))
  : list (string * jsval) :=
  match props with
  | [] => [(name, v)]
  | (k, old) :: rest =>
      if String.eqb k name then (k, v) :: rest
      else (k, old) :: set_field name v rest
  end.

(** [v.name] for a name that is neither an index nor [length] (the code
    reads [state], [moves] and the key path [id]): a property read on
    [undefined] or [null] throws, an object answers from its properties, and
    nothing else has such a property. *)
Definition prop_read (v : jsval) (name : string) : result jsval :=
  match v with
  | JUndefined => Throw TypeError
  | JNull => Throw TypeError
  | JObj props => Ok (get_field name props)
  | _ => Ok JUndefined
  end.

Definition index_name (i : nat) : string :=
  NilEmpty.string_of_uint (Nat.to_uint i).

(** [v[i]] for a non-negative integer [i]. *)
Definition index_read (v : jsval) (i : nat) : result jsval :=
  match v with
  | JUndefined => Throw TypeError
  | JNull => Throw TypeError
  | JArr elems => Ok (nth i elems JUndefined)
  | JObj props => Ok (get_field (index_name i) props)
  | JStr s =>
      Ok (match String.get i s with
          | Some c => JStr (String c EmptyString)
          | None => JUndefined
          end)
  | _ => Ok JUndefined
  end.

(** The structured clone IndexedDB makes of a value it stores or returns: a
    fresh value with the same structure. *)
Fixpoint structured_clone (v : jsval) : jsval :=
  match v with
  | JArr elems => JArr (map structured_clone elems)
  | JObj props => JObj (map (fun kv => (fst kv, structured_clone (snd kv))) props)
  | _ => v
  end.

(** [jQuery.extend(target, object)], the shallow form: every property of
    [object] is assigned to [target], except those whose value is
    [undefined], which jQuery does not copy ("Don't bring in undefined
    values"), and [__proto__]. The values are assigned as they are, nothing
    below the first level is copied. jQuery also skips a property that holds
    [target] itself, which cannot happen for the new object the code passes. *)
Fixpoint extend_props (target source : list (string * jsval)) : list (string * jsval) :=
  match source with
  | [] => target
  | (name, copy) :: rest =>
      if String.eqb name "__proto__" then extend_props target rest
      else if is_undefined copy then extend_props target rest
      else extend_props (set_field name copy target) rest
  end.

Definition jQuery_extend (target object : jsval) : jsval :=
  match target, object with
  | JObj t, JObj o => JObj (extend_props t o)
  | _, _ => target
  end.

Definition num (z : Z) : jsval := JNum (Num (inject_Z z)).

(** ** The browser's IndexedDB, as far as the code uses it *)

Module IndexedDB.

(** A key of a record. The code stores under the number [1]; string keys
    are kept for completeness, and any other value is refused as a key. *)
Inductive key : Type :=
| KNum (q : Q)
| KStr (s : string).

Definition to_key (v : jsval) : option key :=
  match v with
  | JNum (Num q) => Some (KNum q)
  | JStr s => Some (KStr s)
  | _ => None
  end.

Definition key_eqb (a b : key) : bool :=
  match a, b with
  | KNum p, KNum q => Qeq_bool p q
  | KStr s, KStr t => String.eqb s t
  | _, _ => false
  end.

Record index : Type := mkIndex {
  ix_keyPath : string;
  ix_unique : bool
}.

Record object_store : Type := mkStore {
  os_keyPath : string;
  os_indexes : gmap string index;
  os_records : list jsval
}.

Record database : Type := mkDb {
  db_version : nat;
  db_stores : gmap string object_store
}.

(** Does record [r] carry key [k] at key path [path]? *)
Definition has_key (path : string) (k : key) (r : jsval) : bool :=
  match prop_read r path with
  | Ok v => match to_key v with Some k' => key_eqb k k' | None => false end
  | Throw _ => false
  end.

(** The record list after a [put] under key [k]: a record with that key is
    replaced, otherwise the new record is added. *)
Fixpoint put_record (path : string) (k : key) (value : jsval) (rs : list jsval)
  : list jsval :=
  match rs with
  | [] => [value]
  | r :: rest =>
      if has_key path k r then value :: rest
      else r :: put_record path k value rest
  end.

(** [objectStore.put(value)] on a store with an in-line key: the key is read
    from the value at the store's key path; a value without a valid key
    there is refused with a [DataError]. *)
Definition store_put (value : jsval) (os : object_store) : result object_store :=
  match prop_read value (os_keyPath os) with
  | Ok kv =>
      match to_key kv with
      | Some k =>
          Ok {| os_keyPath := os_keyPath os;
                os_indexes := os_indexes os;
                os_records := put_record (os_keyPath os) k value (os_records os) |}
      | None => Throw DataError
      end
  | Throw _ => Throw DataError
  end.

(** [index.get(k)]: the first record whose value at the index's key path is
    [k], or [undefined]. *)
Fixpoint index_get (ix : index) (k : key) (rs : list jsval) : jsval :=
  match rs with
  | [] => JUndefined
  | r :: rest => if has_key (ix_keyPath ix) k r then r else index_get ix k rest
  end.

End IndexedDB.

(** ** The registry: [state_handler.js] *)

Module StateHandler.
Import IndexedDB.

Definition base_state : jsval :=
  JObj [ ("states", JArr []);
         ("environments", JArr []);
         ("moves", JArr []);
         ("out", JStr "");
         ("index", num 0);
         ("expr_i", num 0);
         ("start", num 0);
         ("end", num 0);
         ("roots", JArr [JStr "demo"]);
         ("globalFrameID", num (-1));
         ("editor_open", JBool false);
         ("sub_open", JBool false);
         ("env_open", JBool false);
         ("turtle_open", JBool false);
         ("out_open", JBool false);
         ("tests_open", JBool false);
         ("test_results", JUndefined);
         ("file_name", JStr "") ].

Definition temp_file : string := "<temporary>".

(** The module-level bindings. [states] is reassigned by [load];
    [base_state] and [temp_file] are bindings of the module as well. *)
Record registry : Type := mkRegistry {
  var_base_state : jsval;
  var_states : jsval;
  var_temp_file : string
}.

(** Module initialisation:
    [let states = [jQuery.extend({}, base_state)];] *)
Definition module_init : registry :=
  {| var_base_state := base_state;
     var_states := JArr [jQuery_extend (JObj []) base_state];
     var_temp_file := temp_file |}.

(** A completion callback as a caller passes it: a function, named by a
    number, or nothing. *)
Inductive callback : Type :=
| CbUndefined
| CbFun (f : nat).

(** The two closures handed to [db]:
    [function (db) { store(db, callback); }] in [saveState] and
    [function (db) { load(db, callback); }] in [loadState]. *)
Inductive db_callback : Type :=
| StoreInto (callback : callback)
| LoadFrom (callback : callback).

(** What is pending in the event loop. Each task stands for the event that
    ends it and carries what its handler closes over. *)
Inductive task : Type :=
| OpenRequest (name : string) (callback : db_callback)
| PutRequest (db store : string) (value : jsval)
| TransactionComplete (db : string) (callback : callback)
| IndexGetRequest (db store index : string) (k : key) (callback : callback).

Inductive logged : Type :=
| LogStr (s : string)
| LogVal (v : jsval)
| LogCallback (c : callback).

(** What an observer sees. [Called f s]: the callback [f] runs, and the
    binding [states] holds [s] at that moment. *)
Inductive event : Type :=
| ConsoleLog (what : logged)
| UpgradeNeeded (name : string)
| Closed (name : string)
| Committed (name : string)
| Called (f : nat) (states_seen : jsval)
| Uncaught (e : error).

Record world : Type := mkWorld {
  reg : registry;
  idb : gmap string database;
  queue : list task;
  trace : list event
}.

(** *** State and exceptions *)

Definition M (A : Type) : Type := world -> result A * world.

#[global] Instance M_ret : MRet M := fun A a w => (Ok a, w).
#[global] Instance M_bind : MBind M := fun A B f m w =>
  match m w with
  | (Ok a, w') => f a w'
  | (Throw e, w') => (Throw e, w')
  end.

Definition throw {A : Type} (e : error) : M A := fun w => (Throw e, w).
Definition lift {A : Type} (r : result A) : M A := fun w => (r, w).
Definition skip : M unit := mret tt.

Definition emit (e : event) : M unit := fun w =>
  (Ok tt, mkWorld (reg w) (idb w) (queue w) (trace w ++ [e])).

Definition enqueue (t : task) : M unit := fun w =>
  (Ok tt, mkWorld (reg w) (idb w) (queue w ++ [t]) (trace w)).

Definition read_states : M jsval := fun w => (Ok (var_states (reg w)), w).

Definition assign_states (v : jsval) : M unit := fun w =>
  (Ok tt, mkWorld (mkRegistry (var_base_state (reg w)) v (var_temp_file (reg w)))
                  (idb w) (queue w) (trace w)).

Definition read_idb : M (gmap string database) := fun w => (Ok (idb w), w).

Definition write_idb (i : gmap string database) : M unit := fun w =>
  (Ok tt, mkWorld (reg w) i (queue w) (trace w)).

Definition console_log (what : logged) : M unit := emit (ConsoleLog what).

(** [callback()]: calling [undefined] is a [TypeError]. *)
Definition invoke (callback : callback) : M unit :=
  match callback with
  | CbUndefined => throw TypeError
  | CbFun f => s ← read_states; emit (Called f s)
  end.

(** *** The IndexedDB calls the code makes *)

Inductive mode : Type := ReadOnly | ReadWrite.

Record transaction : Type := mkTx { tx_db : string; tx_scope : string; tx_mode : mode }.
Record store_handle : Type := mkStoreHandle { sh_tx : transaction; sh_name : string }.
Record index_handle : Type := mkIndexHandle { ih_store : store_handle; ih_name : string }.

Definition find_store (db name : string) : M object_store :=
  i ← read_idb;
  match i !! db with
  | None => throw InvalidStateError
  | Some d =>
      match db_stores d !! name with
      | None => throw NotFoundError
      | Some os => mret os
      end
  end.

(** [db.transaction(storeName, mode)] *)
Definition db_transaction (db storeName : string) (m : mode) : M transaction :=
  find_store db storeName;;
  mret (mkTx db storeName m).

(** [tx.objectStore(name)] *)
Definition tx_objectStore (tx : transaction) (name : string) : M store_handle :=
  if String.eqb name (tx_scope tx) then mret (mkStoreHandle tx name)
  else throw NotFoundError.

(** [store.put(value)]: the value is cloned and its key checked at the
    call; the write itself is a pending request. *)
Definition os_put (h : store_handle) (value : jsval) : M unit :=
  match tx_mode (sh_tx h) with
  | ReadOnly => throw ReadOnlyError
  | ReadWrite =>
      os ← find_store (tx_db (sh_tx h)) (sh_name h);
      let copy := structured_clone value in
      lift (store_put copy os);;
      enqueue (PutRequest (tx_db (sh_tx h)) (sh_name h) copy)
  end.

(** [store.index(name)] *)
Definition os_index (h : store_handle) (name : string) : M index_handle :=
  os ← find_store (tx_db (sh_tx h)) (sh_name h);
  match os_indexes os !! name with
  | None => throw NotFoundError
  | Some _ => mret (mkIndexHandle h name)
  end.

(** [let request = index.get(k); request.onsuccess = ...]: the request
    is pending with the handler's callback. *)
Definition ix_get (h : index_handle) (k : jsval) (callback : callback) : M unit :=
  match to_key k with
  | None => throw DataError
  | Some k' =>
      enqueue (IndexGetRequest (tx_db (sh_tx (ih_store h))) (sh_name (ih_store h))
                               (ih_name h) k' callback)
  end.

(** [db.createObjectStore(name, {keyPath: path})] *)
Definition createObjectStore (db name path : string) : M unit :=
  i ← read_idb;
  match i !! db with
  | None => throw InvalidStateError
  | Some d =>
      match db_stores d !! name with
      | Some _ => throw ConstraintError
      | None =>
          write_idb (<[db := mkDb (db_version d)
                                  (<[name := mkStore path ∅ []]> (db_stores d))]> i)
      end
  end.

(** [store.createIndex(name, path, {unique: u})] *)
Definition createIndex (db store name path : string) (u : bool) : M unit :=
  i ← read_idb;
  match i !! db with
  | None => throw InvalidStateError
  | Some d =>
      match db_stores d !! store with
      | None => throw NotFoundError
      | Some os =>
          match os_indexes os !! name with
          | Some _ => throw ConstraintError
          | None =>
              write_idb
                (<[db := mkDb (db_version d)
                     (<[store := mkStore (os_keyPath os)
                                   (<[name := mkIndex path u]> (os_indexes os))
                                   (os_records os)]> (db_stores d))]> i)
          end
      end
  end.

(** [db.close()] *)
Definition db_close (db : string) : M unit := emit (Closed db).

(** The write a pending [put] performs. *)
Definition perform_put (db store : string) (value : jsval) : M unit :=
  i ← read_idb;
  match i !! db with
  | None => throw InvalidStateError
  | Some d =>
      match db_stores d !! store with
      | None => throw NotFoundError
      | Some os =>
          os' ← lift (store_put value os);
          write_idb (<[db := mkDb (db_version d) (<[store := os']> (db_stores d))]> i)
      end
  end.

(** The read a pending [index.get] performs: the result of the request, a
    clone of the record found. *)
Definition perform_get (db store name : string) (k : key) : M jsval :=
  os ← find_store db store;
  match os_indexes os !! name with
  | None => throw NotFoundError
  | Some ix => mret (structured_clone (index_get ix k (os_records os)))
  end.

(** *** The functions of [state_handler.js] *)

(** [function db(callback)]: [indexedDB.open("state")]; the two handlers
    of the request are [db_onupgradeneeded] and [db_onsuccess] below. *)
Definition db (callback : db_callback) : M unit :=
  enqueue (OpenRequest "state" callback).

(** [request.onupgradeneeded] *)
Definition db_onupgradeneeded (db : string) : M unit :=
  createObjectStore db "state" "id";;
  createIndex db "state" "by_id" "id" true.

(** [tx.oncomplete] of [store] *)
Definition store_oncomplete (callback : callback) : M unit :=
  console_log (LogStr "Save complete!");;
  match callback with
  | CbUndefined => skip
  | _ => console_log (LogCallback callback);; invoke callback
  end.

(** [function store(db, callback)] *)
Definition store (db : string) (callback : callback) : M unit :=
  tx ← db_transaction db "state" ReadWrite;
  os ← tx_objectStore tx "state";
  states ← read_states;
  os_put os (JObj [("id", num 1); ("state", states)]);;
  enqueue (TransactionComplete db callback).

(** [request.onsuccess] of [load]; [matching] is [request.result]. *)
Definition load_onsuccess (matching : jsval) (callback : callback) : M unit :=
  (if is_undefined matching then skip
   else
     s ← lift (prop_read matching "state");
     assign_states s;;
     states ← read_states;
     console_log (LogVal states));;
  invoke callback.

(** [function load(db, callback)] *)
Definition load (db : string) (callback : callback) : M unit :=
  tx ← db_transaction db "state" ReadOnly;
  os ← tx_objectStore tx "state";
  index ← os_index os "by_id";
  ix_get index (num 1) callback.

(** [request.onsuccess] of [db]: [callback(db); db.close();] *)
Definition db_onsuccess (db : string) (callback : db_callback) : M unit :=
  match callback with
  | StoreInto cb => store db cb
  | LoadFrom cb => load db cb
  end;;
  db_close db.

(** [function loadState(callback)] *)
Definition loadState (callback : callback) : M unit :=
  db (LoadFrom callback).

(** [function saveState(callback)] *)
Definition saveState (callback : callback) : M unit :=
  console_log (LogStr "Starting save!");;
  db (StoreInto callback).

(** *** The event loop *)

(** Opening a database that does not exist creates it and fires
    [upgradeneeded] before [success]. *)
Definition open_database (name : string) : M unit :=
  i ← read_idb;
  match i !! name with
  | Some _ => skip
  | None =>
      write_idb (<[name := mkDb 1 ∅]> i);;
      emit (UpgradeNeeded name);;
      db_onupgradeneeded name
  end.

Definition handle (t : task) : M unit :=
  match t with
  | OpenRequest name callback =>
      open_database name;;
      db_onsuccess name callback
  | PutRequest db store value =>
      perform_put db store value
  | TransactionComplete db callback =>
      emit (Committed db);;
      store_oncomplete callback
  | IndexGetRequest db store name k callback =>
      matching ← perform_get db store name k;
      load_onsuccess matching callback
  end.

(** A piece of code run from the top level or from the event loop: an
    exception that escapes it is reported and the world goes on. *)
Definition call (m : M unit) (w : world) : world :=
  match m w with
  | (Ok _, w') => w'
  | (Throw e, w') => mkWorld (reg w') (idb w') (queue w') (trace w' ++ [Uncaught e])
  end.

Definition step (w : world) : world :=
  match queue w with
  | [] => w
  | t :: rest => call (handle t) (mkWorld (reg w) (idb w) rest (trace w))
  end.

Fixpoint run (fuel : nat) (w : world) : world :=
  match fuel with
  | O => w
  | S n => run n (step w)
  end.

(** A page that has just loaded the module, over the origin's databases. *)
Definition fresh_page (i : gmap string database) : world :=
  mkWorld module_init i [] [].

(** *** Vocabulary for the properties *)

(** The record [saveState] writes for a [states] list [v]. *)
Definition blob (v : jsval) : jsval := JObj [("id", num 1); ("state", v)].

(** The layout [db_onupgradeneeded] gives the object store. *)
Definition schema_ok (os : object_store) : Prop :=
  os_keyPath os = "id" ∧ os_indexes os !! "by_id" = Some (mkIndex "id" true).

(** Database ["state"] is [d] and its object store ["state"] is [os], laid
    out as the code lays it out. *)
Definition opened (i : gmap string database) (d : database) (os : object_store) : Prop :=
  i !! "state" = Some d ∧ db_stores d !! "state" = Some os ∧ schema_ok os.

(** The origin's databases as this code can find them: no database
    ["state"] yet, or the one it created. *)
Definition well_formed (i : gmap string database) : Prop :=
  i !! "state" = None ∨ ∃ d os, opened i d os.

(** At most one record, and under key [1]. *)
Definition single_blob (rs : list jsval) : Prop :=
  rs = [] ∨ ∃ r, rs = [r] ∧ has_key "id" (KNum 1) r = true.

Definition at_most_one_blob (i : gmap string database) : Prop :=
  i !! "state" = None ∨ ∃ d os, opened i d os ∧ single_blob (os_records os).

(** The store holds no record at all. *)
Definition empty_store (i : gmap string database) : Prop :=
  i !! "state" = None ∨ ∃ d os, opened i d os ∧ os_records os = [].

(** The store holds no record under key [1]. *)
Definition no_record (i : gmap string database) : Prop :=
  i !! "state" = None ∨
  ∃ d os, opened i d os ∧ Forall (fun r => has_key "id" (KNum 1) r = false) (os_records os).

(** The store holds exactly the record of [v]. *)
Definition stored (i : gmap string database) (v : jsval) : Prop :=
  ∃ d os, opened i d os ∧ os_records os = [blob v].

(** The database a first [open] creates. *)
Definition fresh_database : database :=
  mkDb 1 (<["state" := mkStore "id" (<["by_id" := mkIndex "id" true]> ∅) []]> ∅).

(** The databases once [open] has succeeded. *)
Definition after_open (i : gmap string database) : gmap string database :=
  match i !! "state" with
  | Some _ => i
  | None => <["state" := fresh_database]> i
  end.

(** The databases once the record of [v] has been written. *)
Definition after_put (v : jsval) (i : gmap string database) : gmap string database :=
  match i !! "state" with
  | None => i
  | Some d =>
      match db_stores d !! "state" with
      | None => i
      | Some os =>
          <["state" := mkDb (db_version d)
             (<["state" := mkStore (os_keyPath os) (os_indexes os)
                             (put_record (os_keyPath os) (KNum 1) (blob v) (os_records os))]>
                (db_stores d))]> i
      end
  end.

(** What [open] lets an observer see. *)
Definition open_events (i : gmap string database) : list event :=
  match i !! "state" with
  | Some _ => []
  | None => [UpgradeNeeded "state"]
  end.

(** What [callback()] lets an observer see while [states] is [s]. *)
Definition invoke_events (callback : callback) (s : jsval) : list event :=
  match callback with
  | CbUndefined => [Uncaught TypeError]
  | CbFun f => [Called f s]
  end.

(** What a whole [saveState] lets an observer see. *)
Definition save_events (i : gmap string database) (callback : callback) (s : jsval)
  : list event :=
  [ConsoleLog (LogStr "Starting save!")] ++ open_events i
    ++ [Closed "state"; Committed "state"; ConsoleLog (LogStr "Save complete!")]
    ++ match callback with
       | CbUndefined => []
       | CbFun f => [ConsoleLog (LogCallback callback); Called f s]
       end.

(** The callbacks invoked in a trace, in order. *)
Fixpoint invocations (tr : list event) : list nat :=
  match tr with
  | [] => []
  | Called f _ :: rest => f :: invocations rest
  | _ :: rest => invocations rest
  end.

(** The uncaught exceptions of a trace, in order. *)
Fixpoint faults (tr : list event) : list error :=
  match tr with
  | [] => []
  | Uncaught e :: rest => e :: faults rest
  | _ :: rest => faults rest
  end.

(** The events of [w] that follow the first [n]. *)
Definition since (n : nat) (w : world) : list event := drop n (trace w).

(** The tasks a [saveState] leaves in the queue. *)
Definition save_task (t : task) : Prop :=
  match t with
  | OpenRequest _ (StoreInto _) | PutRequest _ _ _ | TransactionComplete _ _ => True
  | _ => False
  end.

(** Every snapshot a callback was given in [tr] is [v]. *)
Definition seen_only (v : jsval) (tr : list event) : Prop :=
  ∀ f s, Called f s ∈ tr → s = v.

(** [w'] comes from [w] by code that leaves the registry alone, queues
    tasks of a save only, and shows callbacks the [states] of [w]. *)
Definition extends (w w' : world) : Prop :=
  reg w' = reg w
  ∧ (∃ q, queue w' = queue w ++ q ∧ Forall save_task q)
  ∧ (∃ more, trace w' = trace w ++ more ∧ seen_only (var_states (reg w)) more).

Definition quiet {A : Type} (m : M A) : Prop := ∀ w, extends w (m w).2.

(** What a run keeps while only tasks of a save are pending. *)
Definition framed (w w' : world) : Prop :=
  reg w' = reg w
  ∧ Forall save_task (queue w')
  ∧ ∃ more, trace w' = trace w ++ more ∧ seen_only (var_states (reg w)) more.

(** *** Vocabulary for the properties of whole runs *)

(** The record an [index.get(1)] finds in the databases [i]. *)
Definition found (i : gmap string database) : jsval :=
  match i !! "state" with
  | None => JUndefined
  | Some d =>
      match db_stores d !! "state" with
      | None => JUndefined
      | Some os => index_get (mkIndex "id" true) (KNum 1) (os_records os)
      end
  end.

(** The registry once [load] has seen the record [matching]. *)
Definition load_reg (r : registry) (matching : jsval) : registry :=
  match matching with
  | JObj props => mkRegistry (var_base_state r) (get_field "state" props) (var_temp_file r)
  | _ => r
  end.

(** What the handler of [load] lets an observer see on the record
    [matching]. *)
Definition load_events (callback : callback) (r : registry) (matching : jsval)
  : list event :=
  match matching with
  | JObj props =>
      [ConsoleLog (LogVal (get_field "state" props))]
        ++ invoke_events callback (get_field "state" props)
  | _ => invoke_events callback (var_states r)
  end.

(** The tasks a [loadState] leaves in the queue once the database is open. *)
Definition load_task (t : task) : Prop :=
  match t with
  | IndexGetRequest _ _ _ _ _ => True
  | _ => False
  end.

(** Code that leaves the databases alone and queues reads only. *)
Definition reading {A : Type} (m : M A) : Prop :=
  ∀ w, idb (m w).2 = idb w ∧ ∃ q, queue (m w).2 = queue w ++ q ∧ Forall load_task q.

(** How often the connection was closed in a trace. *)
Fixpoint closings (tr : list event) : nat :=
  match tr with
  | [] => 0
  | Closed _ :: rest => S (closings rest)
  | _ :: rest => closings rest
  end.

(** How often the upgrade handler ran in a trace. *)
Fixpoint upgrades (tr : list event) : nat :=
  match tr with
  | [] => 0
  | UpgradeNeeded _ :: rest => S (upgrades rest)
  | _ :: rest => upgrades rest
  end.

(** The database exists and lacks the object store. *)
Definition store_missing (i : gmap string database) : Prop :=
  ∃ d, i !! "state" = Some d ∧ db_stores d !! "state" = None.

(** One use of the registry by the rest of the editor: a save or a load,
    each run to its end before the next, or a change of the [states] list
    (made in place, as an importer of the binding must), after which it
    holds [v]. *)
Inductive op : Type :=
| Save (callback : callback)
| Load (callback : callback)
| Assign (v : jsval).

Definition perform (w : world) (o : op) : world :=
  match o with
  | Save cb => run 3 (call (saveState cb) w)
  | Load cb => run 2 (call (loadState cb) w)
  | Assign v => call (assign_states v) w
  end.

(** The registry as a cache over one key: the list in memory and the blob
    persisted, if any. *)
Record cache : Type := mkCache { in_memory : jsval; persisted : option jsval }.

Definition cache_step (c : cache) (o : op) : cache :=
  match o with
  | Save _ => mkCache (in_memory c) (Some (in_memory c))
  | Load _ =>
      match persisted c with
      | Some v => mkCache v (Some v)
      | None => c
      end
  | Assign v => mkCache v (persisted c)
  end.

(** World [w] is at rest and holds what the cache [c] says. *)
Definition holds (c : cache) (w : world) : Prop :=
  var_states (reg w) = in_memory c
  ∧ queue w = []
  ∧ match persisted c with
    | None => empty_store (idb w)
    | Some v => stored (idb w) v
    end.

End StateHandler.

(** ** The turtle-graphics panel: [register] *)

Module TurtleGraphics.

Record point : Type := mkPoint { px : number; py : number }.

(** The options object handed to [svgPanZoom]. *)
Record options : Type := mkOptions {
  fit : bool;
  zoomEnabled : bool;
  center : bool;
  controlIconsEnabled : bool
}.

(** The svg-pan-zoom library, as the panel uses it: [V] is the state of the
    instance bound to the SVG element. Arguments are taken as JavaScript
    passes them, [None] being [undefined]. *)
Class PanZoom (V : Type) : Type := {
  pz_init : option options -> V;
  pz_getZoom : V -> number;
  pz_getPan : V -> point;
  pz_zoom : option number -> V -> V;
  pz_pan : option point -> V -> V;
  pz_reset : V -> V
}.

(** What the panel asks of its collaborators, one entry per call of the
    source. [PzInit o] is [svgPanZoom(rawSVG, o)]; the entries for the
    methods stand for [svgPanZoom(rawSVG).method(...)]. *)
Inductive call : Type :=
| Make (name : string) (id : nat)
| SvgSize (w h : number)
| SvgClear
| Draw (moves : jsval)
| PzInit (o : options)
| PzGetZoom
| PzGetPan
| PzDestroy
| PzReset
| PzZoom (z : option number)
| PzPan (p : option point)
| RequestUpdate
| Uncaught (e : error).

(** One panel instance: the [ready] flag of the closure, the svg-pan-zoom
    instance attached to [rawSVG] (if any), and the calls made so far. *)
Record panel (V : Type) : Type := mkPanel {
  ready : bool;
  viewport : option V;
  calls : list call
}.
Arguments mkPanel {V} ready viewport calls.
Arguments ready {V} p.
Arguments viewport {V} p.
Arguments calls {V} p.

(** [isNaN(zoom)] for a local that is [undefined] or a number. *)
Definition isNaN (zoom : option number) : bool :=
  match zoom with
  | None => true
  | Some NaN => true
  | Some (Num _) => false
  end.

Definition panel_options : options :=
  {| fit := false; zoomEnabled := true; center := false; controlIconsEnabled := true |}.

Section Panel.
Context {V : Type} `{PanZoom V}.

Definition P (A : Type) : Type := panel V -> result A * panel V.

#[local] Instance P_ret : MRet P := fun A a p => (Ok a, p).
#[local] Instance P_bind : MBind P := fun A B f m p =>
  match m p with
  | (Ok a, p') => f a p'
  | (Throw e, p') => (Throw e, p')
  end.

Definition lift {A : Type} (r : result A) : P A := fun p => (r, p).

Definition record (c : call) : P unit := fun p =>
  (Ok tt, mkPanel (ready p) (viewport p) (calls p ++ [c])).

Definition read_ready : P bool := fun p => (Ok (ready p), p).

Definition set_ready (b : bool) : P unit := fun p =>
  (Ok tt, mkPanel b (viewport p) (calls p)).

Definition set_viewport (v : option V) : P unit := fun p =>
  (Ok tt, mkPanel (ready p) v (calls p)).

(** [svgPanZoom(rawSVG, o)]: the instance attached to the element; when
    there is none, one is built from the options given and attached. *)
Definition svgPanZoom (o : option options) : P V := fun p =>
  match viewport p with
  | Some v => (Ok v, p)
  | None => (Ok (pz_init o), mkPanel (ready p) (Some (pz_init o)) (calls p))
  end.

Definition getZoom : P number :=
  v ← svgPanZoom None; record PzGetZoom;; mret (pz_getZoom v).

Definition getPan : P point :=
  v ← svgPanZoom None; record PzGetPan;; mret (pz_getPan v).

Definition destroy : P unit :=
  svgPanZoom None;; record PzDestroy;; set_viewport None.

Definition reset : P unit :=
  v ← svgPanZoom None; record PzReset;; set_viewport (Some (pz_reset v)).

Definition zoom (z : option number) : P unit :=
  v ← svgPanZoom None; record (PzZoom z);; set_viewport (Some (pz_zoom z v)).

Definition pan (p : option point) : P unit :=
  v ← svgPanZoom None; record (PzPan p);; set_viewport (Some (pz_pan p v)).

(** The first part of both redraw handlers:
    [if (ready) { zoom = ...getZoom(); pan = ...getPan(); ...destroy(); }],
    giving the two locals [zoom] and [pan]. *)
Definition capture : P (option number * option point) :=
  r ← read_ready;
  if (r : bool) then
    z ← getZoom;
    p ← getPan;
    destroy;;
    mret (Some z, Some p)
  else mret (None, None).

(** The last part of both redraw handlers:
    [if (isNaN(zoom)) reset() else { zoom(zoom); pan(pan); }] *)
Definition restore (z : option number) (p : option point) : P unit :=
  if isNaN z then reset
  else zoom z;; pan p.

(** The handler of ["update"]; [states] is the registry's list at the time
    of the event and [id] is [componentState.id]. *)
Definition on_update (states : jsval) (id : nat) : P unit :=
  zp ← capture;
  record SvgClear;;
  set_ready true;;
  s ← lift (index_read states id);
  moves ← lift (prop_read s "moves");
  record (Draw moves);;
  svgPanZoom (Some panel_options);;
  record (PzInit panel_options);;
  restore (fst zp) (snd zp).

(** The handler of ["reset"]. *)
Definition on_reset : P unit := reset.

(** The handler of ["resize"]; [w] and [h] are [container.width] and
    [container.height] at the time of the event. *)
Definition on_resize (w h : number) : P unit :=
  zp ← capture;
  record (SvgSize w h);;
  svgPanZoom (Some panel_options);;
  record (PzInit panel_options);;
  restore (fst zp) (snd zp);;
  set_ready true.

(** The handler of ["shown"]. *)
Definition on_shown : P unit := record RequestUpdate.

(** The component function [register] hands to the layout: the panel as it
    is once the function returns. *)
Definition register (w h : number) (id : nat) : panel V :=
  mkPanel false None [Make "turtle_graphics" id; SvgSize w h].

(** An event handler runs to its end or to an uncaught exception. *)
Definition fire (m : P unit) (p : panel V) : panel V :=
  match m p with
  | (Ok _, p') => p'
  | (Throw e, p') => mkPanel (ready p') (viewport p') (calls p' ++ [Uncaught e])
  end.

Inductive event : Type :=
| Update (states : jsval)
| ViewReset
| Resize (w h : number)
| PanelShown.

Definition dispatch (id : nat) (e : event) : panel V -> panel V :=
  match e with
  | Update states => fire (on_update states id)
  | ViewReset => fire on_reset
  | Resize w h => fire (on_resize w h)
  | PanelShown => fire on_shown
  end.

(** The instance [svgPanZoom(rawSVG)] answers with: the one attached, or a
    new one with the library's defaults. *)
Definition attached (p : panel V) : V :=
  match viewport p with
  | Some v => v
  | None => pz_init None
  end.

(** The calls that bring a captured zoom [z] and pan [pn] back. *)
Definition restore_calls (z : number) (pn : point) : list call :=
  if isNaN (Some z) then [PzReset] else [PzZoom (Some z); PzPan (Some pn)].

(** The new instance once a captured zoom [z] and pan [pn] are back. *)
Definition restored (z : number) (pn : point) : V :=
  if isNaN (Some z) then pz_reset (pz_init (Some panel_options))
  else pz_pan (Some pn) (pz_zoom (Some z) (pz_init (Some panel_options))).

(** The calls a handler adds to those already made. *)
Definition added (before after : panel V) : list call :=
  drop (length (calls before)) (calls after).

(** *** Vocabulary for the properties of event sequences *)

(** The events of a panel, handled one after the other. *)
Definition run_events (id : nat) (es : list event) (p : panel V) : panel V :=
  fold_left (fun q e => dispatch id e q) es p.

(** [states[id].moves] can be read: both property reads succeed. *)
Definition readable (states : jsval) (id : nat) : Prop :=
  ∃ s moves, index_read states id = Ok s ∧ prop_read s "moves" = Ok moves.

(** Every ["update"] of the sequence comes with readable [states]. *)
Definition event_ok (id : nat) (e : event) : Prop :=
  match e with
  | Update states => readable states id
  | _ => True
  end.

(** The events whose handlers set [ready]. *)
Definition is_redraw (e : event) : bool :=
  match e with
  | Update _ | Resize _ _ => true
  | _ => false
  end.

(** A ready panel has a controller attached. *)
Definition attached_when_ready (p : panel V) : Prop :=
  ready p = true → viewport p ≠ None.

(** The instance [svgPanZoom(rawSVG, panel_options)] answers with: the one
    attached, or a new one with the panel's options. *)
Definition attached_or_new (p : panel V) : V :=
  match viewport p with
  | Some v => v
  | None => pz_init (Some panel_options)
  end.

End Panel.

(** A plain viewport for concrete runs: a fresh or reset instance shows
    zoom 1 at the origin, and [zoom] and [pan] store what they are given. *)
Record plain_viewport : Type := mkPlain { pv_zoom : number; pv_pan : point }.

Definition origin : point := mkPoint (Num 0) (Num 0).

#[global] Instance plain_PanZoom : PanZoom plain_viewport := {|
  pz_init := fun _ => mkPlain (Num 1) origin;
  pz_getZoom := pv_zoom;
  pz_getPan := pv_pan;
  pz_zoom := fun z v => mkPlain (match z with Some n => n | None => NaN end) (pv_pan v);
  pz_pan := fun p v => mkPlain (pv_zoom v) (match p with Some q => q | None => pv_pan v end);
  pz_reset := fun _ => mkPlain (Num 1) origin
|}.

(** A registry with one session, and two panels in the ready state: one
    zoomed and panned, one whose zoom is not a number. *)
Definition one_session : jsval := JArr [JObj [("moves", JArr [JStr "forward"])]].

Definition zoomed_panel : panel plain_viewport :=
  mkPanel true (Some (mkPlain (Num 2) (mkPoint (Num 3) (Num 4)))) [].

Definition broken_panel : panel plain_viewport :=
  mkPanel true (Some (mkPlain NaN origin)) [].

End TurtleGraphics.

(** * Properties *)

(** ** Values *)

(** A structured clone is deep-equal to the value cloned. *)
Lemma structured_clone_id (v : jsval) : structured_clone v = v.
Proof.
  induction v as [| | b | n | s | elems IH | props IH] using jsval_ind;
    simpl; try reflexivity; f_equal.
  - induction IH as [| x rest Hx _ IHrest]; simpl; [reflexivity |].
    by rewrite Hx, IHrest.
  - induction IH as [| [k x] rest Hx _ IHrest]; simpl in *; [reflexivity |].
    by rewrite Hx, IHrest.
Qed.

(** ** The registry *)

Module RegistryFacts.
Import IndexedDB StateHandler.

Ltac unfold_m :=
  unfold mbind, M_bind, mret, M_ret, skip, throw, lift, emit, enqueue, read_states,
    assign_states, read_idb, write_idb, console_log in *.

(** *** Records *)

Lemma has_key_blob (v : jsval) : has_key "id" (KNum 1) (blob v) = true.
Proof. reflexivity. Qed.

Lemma store_put_blob (v : jsval) (os : object_store) :
  os_keyPath os = "id" →
  store_put (blob v) os
    = Ok (mkStore (os_keyPath os) (os_indexes os)
            (put_record (os_keyPath os) (KNum 1) (blob v) (os_records os))).
Proof. intros Hk. unfold store_put. rewrite Hk. reflexivity. Qed.

Lemma index_get_put (ix : index) (v : jsval) (rs : list jsval) :
  ix_keyPath ix = "id" →
  index_get ix (KNum 1) (put_record "id" (KNum 1) (blob v) rs) = blob v.
Proof.
  intros Hk. induction rs as [| r rest IH]; simpl.
  - rewrite Hk. reflexivity.
  - destruct (has_key "id" (KNum 1) r) eqn:Hr; simpl.
    + rewrite Hk. reflexivity.
    + rewrite Hk, Hr. exact IH.
Qed.

Lemma put_record_twice (v : jsval) (rs : list jsval) :
  put_record "id" (KNum 1) (blob v) (put_record "id" (KNum 1) (blob v) rs)
  = put_record "id" (KNum 1) (blob v) rs.
Proof.
  induction rs as [| r rest IH]; simpl; [reflexivity |].
  destruct (has_key "id" (KNum 1) r) eqn:Hr; simpl.
  - reflexivity.
  - rewrite Hr. by rewrite IH.
Qed.

Lemma put_record_single (v : jsval) (rs : list jsval) :
  single_blob rs → put_record "id" (KNum 1) (blob v) rs = [blob v].
Proof.
  intros [-> | (r & -> & Hr)]; simpl; [reflexivity |]. by rewrite Hr.
Qed.

Lemma index_get_none (ix : index) (rs : list jsval) :
  ix_keyPath ix = "id" →
  Forall (fun r => has_key "id" (KNum 1) r = false) rs →
  index_get ix (KNum 1) rs = JUndefined.
Proof.
  intros Hk Hall. induction Hall as [| r rest Hr _ IH]; simpl; [reflexivity |].
  by rewrite Hk, Hr.
Qed.

(** *** The databases *)

Lemma after_open_opened (i : gmap string database) :
  well_formed i → ∃ d os, opened (after_open i) d os.
Proof.
  unfold after_open. intros [Hnone | (d & os & Hop)].
  - rewrite Hnone. exists fresh_database, (mkStore "id" (<["by_id" := mkIndex "id" true]> ∅) []).
    split; [apply lookup_insert_eq |].
    split; [apply lookup_insert_eq |].
    split; [reflexivity | apply lookup_insert_eq].
  - destruct Hop as (Hd & Hos & Hs). rewrite Hd. exists d, os. exact (conj Hd (conj Hos Hs)).
Qed.

Lemma after_open_records (i : gmap string database) (d : database) (os : object_store) :
  i !! "state" = None → opened (after_open i) d os → os_records os = [].
Proof.
  unfold after_open. intros Hnone (Hd & Hos & _). rewrite Hnone in Hd.
  rewrite lookup_insert_eq in Hd. injection Hd as <-. simpl in Hos.
  rewrite lookup_insert_eq in Hos. by injection Hos as <-.
Qed.

Lemma after_open_same (i : gmap string database) (d : database) :
  i !! "state" = Some d → after_open i = i.
Proof. unfold after_open. by intros ->. Qed.

Lemma after_put_opened (v : jsval) (i : gmap string database)
    (d : database) (os : object_store) :
  opened i d os →
  opened (after_put v i)
    (mkDb (db_version d)
       (<["state" := mkStore "id" (os_indexes os)
                       (put_record "id" (KNum 1) (blob v) (os_records os))]> (db_stores d)))
    (mkStore "id" (os_indexes os) (put_record "id" (KNum 1) (blob v) (os_records os))).
Proof.
  intros (Hd & Hos & Hk & Hix). unfold after_put. rewrite Hd, Hos, Hk.
  split; [apply lookup_insert_eq |].
  split; [apply lookup_insert_eq |].
  split; [reflexivity | exact Hix].
Qed.

Lemma after_put_twice (v : jsval) (i : gmap string database) :
  well_formed i → after_put v (after_put v (after_open i)) = after_put v (after_open i).
Proof.
  intros Hwf. destruct (after_open_opened i Hwf) as (d & os & Hop).
  pose proof (after_put_opened v _ d os Hop) as (Hd' & Hos' & _).
  unfold after_put at 1. rewrite Hd'. simpl. rewrite lookup_insert_eq. simpl.
  rewrite put_record_twice. rewrite insert_insert_eq.
  apply insert_id. exact Hd'.
Qed.

Lemma after_put_stored (v : jsval) (i : gmap string database) :
  at_most_one_blob i → stored (after_put v (after_open i)) v.
Proof.
  intros Hone.
  assert (∃ d os, opened (after_open i) d os ∧ single_blob (os_records os))
    as (d & os & Hop & Hsingle).
  { destruct Hone as [Hnone | (d & os & Hop & Hs)].
    - destruct (after_open_opened i (or_introl Hnone)) as (d & os & Hop).
      exists d, os. split; [exact Hop |]. left. by eapply after_open_records.
    - exists d, os. rewrite (after_open_same i d (proj1 Hop)). by split. }
  eexists _, _. split; [apply (after_put_opened v _ d os Hop) |].
  simpl. by apply put_record_single.
Qed.

(** *** Running the code *)

Lemma run_idle (n : nat) (r : registry) (i : gmap string database) (tr : list event) :
  run n (mkWorld r i [] tr) = mkWorld r i [] tr.
Proof. induction n as [| n IH]; simpl; [reflexivity | exact IH]. Qed.

Lemma open_database_run (r : registry) (i : gmap string database)
    (q : list task) (tr : list event) :
  open_database "state" (mkWorld r i q tr)
  = (Ok tt, mkWorld r (after_open i) q (tr ++ open_events i)).
Proof.
  unfold open_database, after_open, open_events, db_onupgradeneeded,
    createObjectStore, createIndex.
  unfold_m. simpl. destruct (i !! "state") as [d |] eqn:Hd; simpl.
  - by rewrite app_nil_r.
  - rewrite !lookup_insert_eq. simpl. rewrite lookup_empty. simpl.
    rewrite !lookup_insert_eq. simpl. rewrite lookup_insert_eq. simpl.
    rewrite lookup_empty. rewrite !insert_insert_eq. reflexivity.
Qed.

Lemma store_run (cb : callback) (r : registry) (i : gmap string database)
    (d : database) (os : object_store) (q : list task) (tr : list event) :
  opened i d os →
  store "state" cb (mkWorld r i q tr)
  = (Ok tt, mkWorld r i
              ((q ++ [PutRequest "state" "state" (blob (var_states r))])
                 ++ [TransactionComplete "state" cb]) tr).
Proof.
  intros (Hd & Hos & Hk & Hix).
  unfold store, db_transaction, tx_objectStore, os_put, find_store.
  unfold_m. simpl. rewrite Hd, Hos. simpl. rewrite Hd, Hos. simpl.
  rewrite structured_clone_id.
  pose proof (store_put_blob (var_states r) os Hk) as Hput.
  unfold blob, num in *. rewrite Hput. reflexivity.
Qed.

Lemma load_run (cb : callback) (r : registry) (i : gmap string database)
    (d : database) (os : object_store) (q : list task) (tr : list event) :
  opened i d os →
  load "state" cb (mkWorld r i q tr)
  = (Ok tt, mkWorld r i (q ++ [IndexGetRequest "state" "state" "by_id" (KNum 1) cb]) tr).
Proof.
  intros (Hd & Hos & Hk & Hix).
  unfold load, db_transaction, tx_objectStore, os_index, ix_get, find_store.
  unfold_m. simpl. rewrite Hd, Hos. simpl. rewrite Hd, Hos. simpl.
  rewrite Hix. reflexivity.
Qed.

Lemma perform_put_run (v : jsval) (r : registry) (i : gmap string database)
    (d : database) (os : object_store) (q : list task) (tr : list event) :
  opened i d os →
  perform_put "state" "state" (blob v) (mkWorld r i q tr)
  = (Ok tt, mkWorld r (after_put v i) q tr).
Proof.
  intros (Hd & Hos & Hk & Hix).
  unfold perform_put, after_put. unfold_m. simpl. rewrite Hd, Hos.
  rewrite (store_put_blob v os Hk). reflexivity.
Qed.

Lemma perform_get_run (r : registry) (i : gmap string database)
    (d : database) (os : object_store) (q : list task) (tr : list event) :
  opened i d os →
  perform_get "state" "state" "by_id" (KNum 1) (mkWorld r i q tr)
  = (Ok (index_get (mkIndex "id" true) (KNum 1) (os_records os)), mkWorld r i q tr).
Proof.
  intros (Hd & Hos & Hk & Hix).
  unfold perform_get, find_store. unfold_m. simpl. rewrite Hd, Hos. simpl.
  rewrite Hix. by rewrite structured_clone_id.
Qed.

Lemma bind_ok {A B : Type} (m : M A) (f : A → M B) (w w' : world) (a : A) :
  m w = (Ok a, w') → (m ≫= f) w = f a w'.
Proof. intros Hm. unfold mbind, M_bind. by rewrite Hm. Qed.

Lemma handle_open_store (cb : callback) (r : registry) (i : gmap string database)
    (q : list task) (tr : list event) :
  well_formed i →
  handle (OpenRequest "state" (StoreInto cb)) (mkWorld r i q tr)
  = (Ok tt, mkWorld r (after_open i)
              ((q ++ [PutRequest "state" "state" (blob (var_states r))])
                 ++ [TransactionComplete "state" cb])
              ((tr ++ open_events i) ++ [Closed "state"])).
Proof.
  intros Hwf. destruct (after_open_opened i Hwf) as (d & os & Hop).
  unfold handle. erewrite bind_ok by apply open_database_run.
  unfold db_onsuccess. erewrite bind_ok by (eapply store_run; exact Hop).
  reflexivity.
Qed.

Lemma handle_open_load (cb : callback) (r : registry) (i : gmap string database)
    (q : list task) (tr : list event) :
  well_formed i →
  handle (OpenRequest "state" (LoadFrom cb)) (mkWorld r i q tr)
  = (Ok tt, mkWorld r (after_open i)
              (q ++ [IndexGetRequest "state" "state" "by_id" (KNum 1) cb])
              ((tr ++ open_events i) ++ [Closed "state"])).
Proof.
  intros Hwf. destruct (after_open_opened i Hwf) as (d & os & Hop).
  unfold handle. erewrite bind_ok by apply open_database_run.
  unfold db_onsuccess. erewrite bind_ok by (eapply load_run; exact Hop).
  reflexivity.
Qed.

Lemma handle_complete (cb : callback) (r : registry) (i : gmap string database)
    (q : list task) (tr : list event) :
  call (handle (TransactionComplete "state" cb)) (mkWorld r i q tr)
  = mkWorld r i q
      (tr ++ [Committed "state"; ConsoleLog (LogStr "Save complete!")]
          ++ match cb with
             | CbUndefined => []
             | CbFun f => [ConsoleLog (LogCallback cb); Called f (var_states r)]
             end).
Proof.
  destruct cb as [| f]; unfold call, handle, store_oncomplete, invoke; unfold_m; simpl;
    rewrite <- !app_assoc; reflexivity.
Qed.

(** The handler of a finished [index.get]: what it finds decides whether
    [states] is replaced; the callback is invoked in both cases. *)
Lemma handle_get (cb : callback) (r : registry) (i : gmap string database)
    (d : database) (os : object_store) (q : list task) (tr : list event) :
  opened i d os →
  call (handle (IndexGetRequest "state" "state" "by_id" (KNum 1) cb)) (mkWorld r i q tr)
  = call (load_onsuccess (index_get (mkIndex "id" true) (KNum 1) (os_records os)) cb)
      (mkWorld r i q tr).
Proof.
  intros Hop. unfold call, handle.
  erewrite bind_ok by (eapply perform_get_run; exact Hop). reflexivity.
Qed.

Lemma load_onsuccess_missing (cb : callback) (r : registry) (i : gmap string database)
    (q : list task) (tr : list event) :
  call (load_onsuccess JUndefined cb) (mkWorld r i q tr)
  = mkWorld r i q (tr ++ invoke_events cb (var_states r)).
Proof.
  destruct cb as [| f]; unfold call, load_onsuccess, invoke; unfold_m; reflexivity.
Qed.

Lemma load_onsuccess_blob (v : jsval) (cb : callback) (r : registry)
    (i : gmap string database) (q : list task) (tr : list event) :
  call (load_onsuccess (blob v) cb) (mkWorld r i q tr)
  = mkWorld (mkRegistry (var_base_state r) v (var_temp_file r)) i q
      (tr ++ [ConsoleLog (LogVal v)] ++ invoke_events cb v).
Proof.
  destruct cb as [| f]; unfold call, load_onsuccess, invoke; unfold_m; simpl;
    rewrite <- ?app_assoc; reflexivity.
Qed.

Lemma step_cons (t : task) (q : list task) (r : registry) (i : gmap string database)
    (tr : list event) :
  step (mkWorld r i (t :: q) tr) = call (handle t) (mkWorld r i q tr).
Proof. reflexivity. Qed.

Lemma call_ok (m : M unit) (w w' : world) :
  m w = (Ok tt, w') → call m w = w'.
Proof. intros Hm. unfold call. by rewrite Hm. Qed.

Lemma saveState_call (cb : callback) (r : registry) (i : gmap string database)
    (q : list task) (tr : list event) :
  call (saveState cb) (mkWorld r i q tr)
  = mkWorld r i (q ++ [OpenRequest "state" (StoreInto cb)])
      (tr ++ [ConsoleLog (LogStr "Starting save!")]).
Proof. reflexivity. Qed.

Lemma loadState_call (cb : callback) (r : registry) (i : gmap string database)
    (q : list task) (tr : list event) :
  call (loadState cb) (mkWorld r i q tr)
  = mkWorld r i (q ++ [OpenRequest "state" (LoadFrom cb)]) tr.
Proof. reflexivity. Qed.

(** A whole [saveState], from the call to the end of its last handler. *)
Lemma save_run (cb : callback) (r : registry) (i : gmap string database)
    (tr : list event) (n : nat) :
  well_formed i →
  run (3 + n) (call (saveState cb) (mkWorld r i [] tr))
  = mkWorld r (after_put (var_states r) (after_open i)) []
      (tr ++ save_events i cb (var_states r)).
Proof.
  intros Hwf. destruct (after_open_opened i Hwf) as (d & os & Hop).
  rewrite saveState_call.
  change (run (3 + n)) with (fun w => run n (step (step (step w)))). cbv beta.
  rewrite app_nil_l, step_cons.
  rewrite (call_ok _ _ _ (handle_open_store cb r i [] _ Hwf)).
  rewrite app_nil_l. cbn [app]. rewrite step_cons.
  rewrite (call_ok _ _ _ (perform_put_run (var_states r) r _ d os _ _ Hop)).
  rewrite step_cons, handle_complete, run_idle.
  f_equal. unfold save_events. rewrite <- !app_assoc. reflexivity.
Qed.

(** A whole [loadState] when the store holds no record under key [1]. *)
Lemma load_run_missing (cb : callback) (r : registry) (i : gmap string database)
    (tr : list event) (n : nat) :
  no_record i →
  run (2 + n) (call (loadState cb) (mkWorld r i [] tr))
  = mkWorld r (after_open i) []
      (tr ++ open_events i ++ [Closed "state"] ++ invoke_events cb (var_states r)).
Proof.
  intros Hno.
  assert (well_formed i) as Hwf.
  { destruct Hno as [Hnone | (d & os & Hop & _)]; [by left | right; eauto]. }
  destruct (after_open_opened i Hwf) as (d & os & Hop).
  assert (Forall (fun r => has_key "id" (KNum 1) r = false) (os_records os)) as Hrs.
  { destruct Hno as [Hnone | (d' & os' & Hop' & Hrs)].
    - rewrite (after_open_records i d os Hnone Hop). constructor.
    - rewrite (after_open_same i d' (proj1 Hop')) in Hop.
      destruct Hop as (Hd & Hos & _), Hop' as (Hd' & Hos' & _).
      rewrite Hd' in Hd. injection Hd as <-. rewrite Hos' in Hos. by injection Hos as <-. }
  rewrite loadState_call.
  change (run (2 + n)) with (fun w => run n (step (step w))). cbv beta.
  rewrite app_nil_l, step_cons.
  rewrite (call_ok _ _ _ (handle_open_load cb r i [] _ Hwf)).
  rewrite app_nil_l, step_cons, (handle_get cb r _ d os _ _ Hop).
  rewrite (index_get_none (mkIndex "id" true) _ eq_refl Hrs), load_onsuccess_missing, run_idle.
  f_equal. rewrite <- !app_assoc. reflexivity.
Qed.

(** A whole [loadState] over what a [saveState] of [v] left. *)
Lemma load_run_saved (v : jsval) (cb : callback) (r : registry)
    (i : gmap string database) (tr : list event) (n : nat) :
  well_formed i →
  run (2 + n) (call (loadState cb) (mkWorld r (after_put v (after_open i)) [] tr))
  = mkWorld (mkRegistry (var_base_state r) v (var_temp_file r))
      (after_put v (after_open i)) []
      (tr ++ [Closed "state"; ConsoleLog (LogVal v)] ++ invoke_events cb v).
Proof.
  intros Hwf. destruct (after_open_opened i Hwf) as (d & os & Hop).
  pose proof (after_put_opened v _ d os Hop) as Hop'.
  set (i' := after_put v (after_open i)) in *.
  assert (well_formed i') as Hwf' by (right; eauto).
  rewrite loadState_call.
  change (run (2 + n)) with (fun w => run n (step (step w))). cbv beta.
  rewrite app_nil_l, step_cons.
  rewrite (call_ok _ _ _ (handle_open_load cb r i' [] _ Hwf')).
  rewrite (after_open_same i' _ (proj1 Hop')).
  rewrite app_nil_l, step_cons, (handle_get cb r _ _ _ _ _ Hop').
  cbn [os_records]. rewrite (index_get_put (mkIndex "id" true) v _ eq_refl).
  rewrite load_onsuccess_blob, run_idle.
  f_equal. unfold open_events. rewrite (proj1 Hop'). rewrite <- !app_assoc. reflexivity.
Qed.

(** The three steps of a [saveState], one world at a time. *)
Lemma save_trajectory (cb : callback) (r : registry) (i : gmap string database)
    (tr : list event) :
  well_formed i →
  let v := var_states r in
  let w0 := call (saveState cb) (mkWorld r i [] tr) in
  let tr1 := (((tr ++ [ConsoleLog (LogStr "Starting save!")]) ++ open_events i)
               ++ [Closed "state"])%list in
  step w0 = mkWorld r (after_open i)
              [PutRequest "state" "state" (blob v); TransactionComplete "state" cb] tr1
  ∧ step (step w0) = mkWorld r (after_put v (after_open i))
                       [TransactionComplete "state" cb] tr1.
Proof.
  intros Hwf v w0 tr1. destruct (after_open_opened i Hwf) as (d & os & Hop).
  assert (step w0 = mkWorld r (after_open i)
              [PutRequest "state" "state" (blob v); TransactionComplete "state" cb] tr1)
    as Hone.
  { unfold w0. rewrite saveState_call, app_nil_l, step_cons.
    by rewrite (call_ok _ _ _ (handle_open_store cb r i [] _ Hwf)). }
  split; [exact Hone |]. rewrite Hone, step_cons.
  by rewrite (call_ok _ _ _ (perform_put_run v r _ d os _ _ Hop)).
Qed.

Lemma invocations_app (a b : list event) :
  invocations (a ++ b) = invocations a ++ invocations b.
Proof.
  induction a as [| e a IH]; simpl; [reflexivity |].
  destruct e; simpl; by rewrite IH.
Qed.

Lemma faults_app (a b : list event) : faults (a ++ b) = faults a ++ faults b.
Proof.
  induction a as [| e a IH]; simpl; [reflexivity |].
  destruct e; simpl; by rewrite IH.
Qed.

Lemma open_events_quiet (i : gmap string database) :
  invocations (open_events i) = [] ∧ faults (open_events i) = [].
Proof. unfold open_events. by destruct (i !! "state"). Qed.

Lemma since_app (tr more : list event) (r : registry) (i : gmap string database)
    (q : list task) :
  since (length tr) (mkWorld r i q (tr ++ more)) = more.
Proof. unfold since. simpl. apply drop_app_length. Qed.

(** *** Saving only reads the registry *)

Lemma seen_only_nil (v : jsval) : seen_only v [].
Proof. intros f s Hin. by apply elem_of_nil in Hin. Qed.

Lemma seen_only_app (v : jsval) (a b : list event) :
  seen_only v a → seen_only v b → seen_only v (a ++ b).
Proof. intros Ha Hb f s Hin. apply elem_of_app in Hin as [Hin | Hin]; eauto. Qed.

Lemma extends_refl (w : world) : extends w w.
Proof.
  split; [reflexivity |]. split.
  - exists []. by rewrite app_nil_r.
  - exists []. rewrite app_nil_r. split; [reflexivity | apply seen_only_nil].
Qed.

Lemma extends_trans (w1 w2 w3 : world) : extends w1 w2 → extends w2 w3 → extends w1 w3.
Proof.
  intros (Hr & (q & Hq & Hqs) & (m & Hm & Hms)) (Hr' & (q' & Hq' & Hqs') & (m' & Hm' & Hms')).
  split; [congruence |]. split.
  - exists (q ++ q'). split; [by rewrite Hq', Hq, app_assoc | by apply Forall_app].
  - exists (m ++ m'). split; [by rewrite Hm', Hm, app_assoc |].
    apply seen_only_app; [exact Hms | by rewrite <- Hr].
Qed.

Create HintDb quiet.

Lemma quiet_ret {A : Type} (a : A) : quiet (mret a).
Proof. intros w. apply extends_refl. Qed.

Lemma quiet_throw {A : Type} (e : error) : quiet (@throw A e).
Proof. intros w. apply extends_refl. Qed.

Lemma quiet_lift {A : Type} (x : result A) : quiet (lift x).
Proof. intros w. apply extends_refl. Qed.

Lemma quiet_read_idb : quiet read_idb.
Proof. intros w. apply extends_refl. Qed.

Lemma quiet_bind {A B : Type} (m : M A) (f : A → M B) :
  quiet m → (∀ a, quiet (f a)) → quiet (m ≫= f).
Proof.
  intros Hm Hf w. unfold mbind, M_bind. specialize (Hm w).
  destruct (m w) as [[a | e] w']; simpl in *; [| exact Hm].
  eapply extends_trans; [exact Hm | apply Hf].
Qed.

Lemma quiet_write_idb (i : gmap string database) : quiet (write_idb i).
Proof.
  intros w. split; [reflexivity |]. split.
  - exists []. by rewrite app_nil_r.
  - exists []. simpl. rewrite app_nil_r. split; [reflexivity | apply seen_only_nil].
Qed.

Lemma quiet_enqueue (t : task) : save_task t → quiet (enqueue t).
Proof.
  intros Ht w. split; [reflexivity |]. split.
  - exists [t]. split; [reflexivity | by constructor].
  - exists []. simpl. rewrite app_nil_r. split; [reflexivity | apply seen_only_nil].
Qed.

Lemma quiet_emit (e : event) : (∀ f s, e ≠ Called f s) → quiet (emit e).
Proof.
  intros He w. split; [reflexivity |]. split.
  - exists []. by rewrite app_nil_r.
  - exists [e]. split; [reflexivity |].
    intros f s Hin. apply list_elem_of_singleton in Hin. by destruct (He f s).
Qed.

Lemma quiet_invoke (cb : callback) : quiet (invoke cb).
Proof.
  destruct cb as [| f]; [apply quiet_throw |].
  intros w. split; [reflexivity |]. split.
  - exists []. by rewrite app_nil_r.
  - exists [Called f (var_states (reg w))]. split; [reflexivity |].
    intros g s Hin. apply list_elem_of_singleton in Hin. by injection Hin as _ ->.
Qed.

Lemma quiet_read_states {B : Type} (f : jsval → M B) :
  (∀ v, quiet (f v)) → quiet (read_states ≫= f).
Proof. intros Hf. apply quiet_bind; [| exact Hf]. intros w. apply extends_refl. Qed.

#[local] Hint Resolve quiet_ret quiet_throw quiet_lift quiet_read_idb quiet_write_idb
  quiet_invoke : quiet.

Ltac quiet_step :=
  first
    [ solve [auto with quiet]
    | apply quiet_enqueue; exact I
    | apply quiet_emit; intros ? ?; discriminate
    | apply quiet_bind; [| intros ?]
    | match goal with
      | |- quiet (match ?x with _ => _ end) => destruct x
      | |- quiet (if ?x then _ else _) => destruct x
      end ].

Ltac quiet_auto := repeat quiet_step.

Lemma quiet_find_store (db name : string) : quiet (find_store db name).
Proof. unfold find_store. quiet_auto. Qed.

Lemma quiet_open_database (name : string) : quiet (open_database name).
Proof.
  unfold open_database, db_onupgradeneeded, createObjectStore, createIndex, skip.
  quiet_auto.
Qed.

Lemma quiet_store (db : string) (cb : callback) : quiet (store db cb).
Proof.
  unfold store, db_transaction, tx_objectStore, os_put.
  pose proof quiet_find_store. quiet_auto; try apply quiet_read_states; intros; quiet_auto.
Qed.

Lemma quiet_handle (t : task) : save_task t → quiet (handle t).
Proof.
  pose proof quiet_open_database. pose proof quiet_store.
  destruct t as [name [cb | cb] | db st v | db cb | db st ix k cb]; simpl; try done; intros _.
  - unfold db_onsuccess, db_close. quiet_auto.
  - unfold perform_put. quiet_auto.
  - unfold store_oncomplete, console_log, skip. quiet_auto.
Qed.

Lemma call_extends (m : M unit) (w : world) : quiet m → extends w (call m w).
Proof.
  intros Hm. specialize (Hm w). unfold call.
  destruct (m w) as [[[] | e] w']; simpl in *; [exact Hm |].
  eapply extends_trans; [exact Hm |].
  split; [reflexivity |]. split.
  - exists []. by rewrite app_nil_r.
  - exists [Uncaught e]. split; [reflexivity |].
    intros f s Hin. by apply list_elem_of_singleton in Hin.
Qed.

Lemma step_framed (w : world) : Forall save_task (queue w) → framed w (step w).
Proof.
  intros Hq. unfold step. destruct w as [r i q tr]; simpl in *.
  destruct q as [| t rest].
  - split; [reflexivity |]. split; [constructor |].
    exists []. simpl. rewrite app_nil_r. split; [reflexivity | apply seen_only_nil].
  - apply Forall_cons in Hq as [Ht Hrest].
    destruct (call_extends (handle t) (mkWorld r i rest tr) (quiet_handle t Ht))
      as (Hr & (q & Hq & Hqs) & Hmore).
    split; [exact Hr |]. split; [| exact Hmore].
    rewrite Hq. simpl. by apply Forall_app.
Qed.

Lemma run_framed (k : nat) (w : world) : Forall save_task (queue w) → framed w (run k w).
Proof.
  revert w. induction k as [| k IH]; intros w Hq; simpl.
  - split; [reflexivity |]. split; [exact Hq |].
    exists []. rewrite app_nil_r. split; [reflexivity | apply seen_only_nil].
  - destruct (step_framed w Hq) as (Hr & Hq' & (m & Hm & Hms)).
    destruct (IH (step w) Hq') as (Hr' & Hq'' & (m' & Hm' & Hms')).
    split; [congruence |]. split; [exact Hq'' |].
    exists (m ++ m'). split; [by rewrite Hm', Hm, app_assoc |].
    apply seen_only_app; [exact Hms | by rewrite <- Hr].
Qed.

(** *** The claims on the registry *)

(** C1. Round trip: the [states] list saved over an empty store is the
    list a fresh page finds after [loadState], whatever the two callbacks
    are; both operations run to completion. *)
Theorem save_load_round_trip (r : registry) (i : gmap string database)
    (cb cb' : callback) (tr : list event) (n m : nat) :
  empty_store i →
  let saved := run (3 + n) (call (saveState cb) (mkWorld r i [] tr)) in
  let loaded := run (2 + m) (call (loadState cb') (fresh_page (idb saved))) in
  queue saved = [] ∧ queue loaded = [] ∧ var_states (reg loaded) = var_states r.
Proof.
  intros Hempty saved loaded.
  assert (well_formed i) as Hwf.
  { destruct Hempty as [Hnone | (d & os & Hop & _)]; [by left | right; eauto]. }
  unfold loaded, saved, fresh_page. rewrite (save_run cb r i tr n Hwf). simpl idb.
  rewrite (load_run_saved (var_states r) cb' module_init i [] m Hwf).
  by repeat split.
Qed.

Lemma save_load_round_trip_witness :
  empty_store ∅
  ∧ var_states
      (reg (run 2 (call (loadState (CbFun 2))
         (fresh_page (idb (run 3 (call (saveState (CbFun 1))
            (mkWorld (mkRegistry base_state (JArr [JStr "a"; JNull]) temp_file) ∅ [] []))))))))
    = JArr [JStr "a"; JNull].
Proof.
  split; [left; reflexivity |].
  apply (save_load_round_trip
           (mkRegistry base_state (JArr [JStr "a"; JNull]) temp_file) ∅
           (CbFun 1) (CbFun 2) [] 0 0).
  left; reflexivity.
Defined.

(** C3. Over a store with no record under the key, [loadState] leaves the
    registry as it was and invokes the callback given exactly once. *)
Theorem load_without_record (r : registry) (i : gmap string database) (f : nat)
    (tr : list event) (n : nat) :
  no_record i →
  let w' := run (2 + n) (call (loadState (CbFun f)) (mkWorld r i [] tr)) in
  reg w' = r
  ∧ queue w' = []
  ∧ invocations (since (length tr) w') = [f]
  ∧ faults (since (length tr) w') = [].
Proof.
  intros Hno w'. unfold w'. rewrite (load_run_missing (CbFun f) r i tr n Hno).
  rewrite since_app, !invocations_app, !faults_app.
  destruct (open_events_quiet i) as [-> ->]. by repeat split.
Qed.

Lemma load_without_record_witness :
  no_record ∅
  ∧ reg (run 2 (call (loadState (CbFun 5)) (fresh_page ∅))) = module_init.
Proof.
  split; [left; reflexivity |].
  apply (load_without_record module_init ∅ 5 [] 0).
  left; reflexivity.
Defined.

(** C4. [saveState] leaves, in database ["state"], an object store
    ["state"] keyed on [id] with the unique index [by_id] on [id], holding
    the one record [{id: 1, state: states}], whatever record was there
    before; the callback is invoked after the transaction has completed,
    and at no step of the run has it been invoked before the record is in
    place. The store is assumed as the code leaves it, with at most one
    record, and is left so. *)
Theorem save_writes_single_record (r : registry) (i : gmap string database)
    (f : nat) (tr : list event) (n : nat) :
  at_most_one_blob i →
  let w0 := call (saveState (CbFun f)) (mkWorld r i [] tr) in
  let w' := run (3 + n) w0 in
  (∃ d os,
      idb w' !! "state" = Some d
      ∧ db_stores d !! "state" = Some os
      ∧ os_keyPath os = "id"
      ∧ os_indexes os !! "by_id" = Some (mkIndex "id" true)
      ∧ os_records os = [JObj [("id", num 1); ("state", var_states r)]])
  ∧ queue w' = []
  ∧ (∃ before,
        since (length tr) w'
        = before ++ [Committed "state"; ConsoleLog (LogStr "Save complete!");
                     ConsoleLog (LogCallback (CbFun f)); Called f (var_states r)]
        ∧ invocations before = [])
  ∧ (∀ k, invocations (since (length tr) (run k w0)) ≠ [] →
          stored (idb (run k w0)) (var_states r))
  ∧ at_most_one_blob (idb w').
Proof.
  intros Hone w0 w'.
  assert (well_formed i) as Hwf.
  { destruct Hone as [Hnone | (d & os & Hop & _)]; [by left | right; eauto]. }
  pose proof (after_put_stored (var_states r) i Hone) as Hstored.
  assert (w' = mkWorld r (after_put (var_states r) (after_open i)) []
                 (tr ++ save_events i (CbFun f) (var_states r))) as Hw'
    by apply (save_run (CbFun f) r i tr n Hwf).
  split; [| split; [| split; [| split]]].
  5: { rewrite Hw'. simpl. destruct Hstored as (d & os & Hop & Hrs).
       right. exists d, os. split; [exact Hop |]. right. exists (blob (var_states r)).
       by split. }
  - rewrite Hw'. simpl. destruct Hstored as (d & os & (Hd & Hos & Hk & Hix) & Hrs).
    exists d, os. by repeat split.
  - by rewrite Hw'.
  - rewrite Hw', since_app. unfold save_events.
    exists ([ConsoleLog (LogStr "Starting save!")] ++ open_events i ++ [Closed "state"]).
    split; [by rewrite <- !app_assoc |].
    rewrite !invocations_app. by destruct (open_events_quiet i) as [-> _].
  - destruct (save_trajectory (CbFun f) r i tr Hwf) as [Hone' Htwo]. fold w0 in Hone', Htwo.
    intros [| [| [| k]]] Hinv.
    + exfalso. apply Hinv. change (run 0 w0) with w0.
      unfold w0. rewrite saveState_call, since_app. reflexivity.
    + exfalso. apply Hinv. change (run 1 w0) with (step w0).
      rewrite Hone'. rewrite <- !app_assoc, since_app.
      rewrite !invocations_app. by destruct (open_events_quiet i) as [-> _].
    + exfalso. apply Hinv. change (run 2 w0) with (step (step w0)).
      rewrite Htwo. rewrite <- !app_assoc, since_app.
      rewrite !invocations_app. by destruct (open_events_quiet i) as [-> _].
    + change (S (S (S k))) with (3 + k).
      unfold w0. rewrite (save_run (CbFun f) r i tr k Hwf). exact Hstored.
Qed.

Lemma save_writes_single_record_witness :
  at_most_one_blob ∅
  ∧ queue (run 3 (call (saveState (CbFun 1)) (mkWorld module_init ∅ [] []))) = [].
Proof.
  split; [left; reflexivity |].
  apply (save_writes_single_record module_init ∅ 1 [] 0).
  left; reflexivity.
Defined.

(** C8. A second [saveState] with the same [states] changes nothing: the
    databases and the registry are what the first save left. *)
Theorem save_idempotent (r : registry) (i : gmap string database)
    (cb cb' : callback) (tr : list event) (n m : nat) :
  well_formed i →
  let once := run (3 + n) (call (saveState cb) (mkWorld r i [] tr)) in
  let twice := run (3 + m) (call (saveState cb') once) in
  idb twice = idb once ∧ reg twice = reg once ∧ queue once = [] ∧ queue twice = [].
Proof.
  intros Hwf once twice.
  destruct (after_open_opened i Hwf) as (d & os & Hop).
  pose proof (after_put_opened (var_states r) _ d os Hop) as Hop'.
  unfold twice, once. rewrite (save_run cb r i tr n Hwf).
  rewrite save_run by (right; eauto). simpl.
  rewrite (after_open_same _ _ (proj1 Hop')).
  by rewrite (after_put_twice _ i Hwf).
Qed.

Lemma save_idempotent_witness :
  well_formed ∅
  ∧ idb (run 3 (call (saveState CbUndefined)
            (run 3 (call (saveState CbUndefined) (fresh_page ∅)))))
    = idb (run 3 (call (saveState CbUndefined) (fresh_page ∅))).
Proof.
  split; [left; reflexivity |].
  apply (save_idempotent module_init ∅ CbUndefined CbUndefined [] 0 0).
  left; reflexivity.
Defined.

(** C9. [saveState] only reads the registry: at every step of the run
    that follows the call, [states], [base_state] and [temp_file] are what
    they were at the call, and that [states] is what a callback invoked
    during the run finds. No assumption is made on the databases. *)
Theorem save_leaves_registry (r : registry) (i : gmap string database)
    (cb : callback) (tr : list event) (k : nat) :
  let w := run k (call (saveState cb) (mkWorld r i [] tr)) in
  reg w = r
  ∧ ∀ g s, Called g s ∈ since (length tr) w → s = var_states r.
Proof.
  intros w. unfold w. rewrite saveState_call.
  set (w0 := mkWorld _ _ _ _).
  assert (Forall save_task (queue w0)) as Hq by (repeat constructor).
  destruct (run_framed k w0 Hq) as (Hr & _ & (more & Hmore & Hseen)).
  split; [exact Hr |].
  intros g s Hin. unfold since in Hin. rewrite Hmore in Hin. simpl in Hin.
  rewrite <- app_assoc, drop_app_length in Hin.
  apply elem_of_cons in Hin as [Hin | Hin]; [discriminate |]. by apply (Hseen g s).
Qed.

(** C10. The callback may be left out of [saveState] and not of
    [loadState]. Without one, a save writes its record, completes, invokes
    nothing and raises nothing. A load without one does its work, leaving
    [states] alone over a store with no record and replacing it over a saved
    one, and then fails on the call of [undefined]. *)
Theorem callback_optional_for_save_only (r r' : registry)
    (i j : gmap string database) (tr : list event) (n : nat) :
  at_most_one_blob i →
  no_record j →
  let saved := run (3 + n) (call (saveState CbUndefined) (mkWorld r i [] tr)) in
  let missing := run (2 + n) (call (loadState CbUndefined) (mkWorld r' j [] tr)) in
  let found := run (2 + n) (call (loadState CbUndefined) (mkWorld r' (idb saved) [] tr)) in
  (stored (idb saved) (var_states r)
   ∧ queue saved = []
   ∧ since (length tr) saved
     = [ConsoleLog (LogStr "Starting save!")] ++ open_events i
         ++ [Closed "state"; Committed "state"; ConsoleLog (LogStr "Save complete!")])
  ∧ (reg missing = r'
     ∧ queue missing = []
     ∧ since (length tr) missing = open_events j ++ [Closed "state"; Uncaught TypeError])
  ∧ (var_states (reg found) = var_states r
     ∧ queue found = []
     ∧ since (length tr) found
       = [Closed "state"; ConsoleLog (LogVal (var_states r)); Uncaught TypeError]).
Proof.
  intros Hone Hno saved missing found.
  assert (well_formed i) as Hwf.
  { destruct Hone as [Hnone | (d & os & Hop & _)]; [by left | right; eauto]. }
  unfold found, missing, saved. rewrite (save_run CbUndefined r i tr n Hwf). simpl idb.
  rewrite (load_run_missing CbUndefined r' j tr n Hno).
  rewrite (load_run_saved (var_states r) CbUndefined r' i tr n Hwf).
  rewrite !since_app. unfold save_events. rewrite app_nil_r.
  split; [| by repeat split].
  split; [by apply after_put_stored | by repeat split].
Qed.

Lemma callback_optional_for_save_only_witness :
  at_most_one_blob ∅
  ∧ no_record ∅
  ∧ faults (since 0 (run 2 (call (loadState CbUndefined) (fresh_page ∅)))) = [TypeError]
  ∧ faults (since 0 (run 3 (call (saveState CbUndefined) (fresh_page ∅)))) = [].
Proof.
  assert (at_most_one_blob ∅) as Hone by (left; reflexivity).
  assert (no_record ∅) as Hno by (left; reflexivity).
  split; [exact Hone |]. split; [exact Hno |].
  destruct (callback_optional_for_save_only module_init module_init ∅ ∅ [] 0 Hone Hno)
    as ((_ & _ & Hsave) & (_ & _ & Hload) & _).
  split.
  - exact (f_equal faults Hload).
  - exact (f_equal faults Hsave).
Defined.

(** C5, as stated, fails: the one element of a fresh [states] is not
    [base_state], it has one field less. *)
Lemma fresh_states_not_base_state : var_states module_init ≠ JArr [base_state].
Proof.
  intros Heq.
  apply (f_equal (fun v => match v with
                           | JArr [JObj props] => length props
                           | _ => 0
                           end)) in Heq.
  vm_compute in Heq. discriminate.
Qed.

(** C5, amended. A fresh [states] has exactly one element; its fields are
    the fields of [base_state] whose value is not [undefined], in order
    and with the same values ([test_results] is left out), and every
    property read gives what it gives on [base_state]. *)
Theorem fresh_states_copy_defined_fields :
  ∃ e props,
    var_states module_init = JArr [e]
    ∧ base_state = JObj props
    ∧ e = JObj (List.filter (fun kv => negb (is_undefined (snd kv))) props)
    ∧ (∀ name, prop_read e name = prop_read base_state name).
Proof.
  let copy := eval vm_compute in (jQuery_extend (JObj []) base_state) in
  pose (e := copy).
  exists e. eexists.
  split; [reflexivity |]. split; [reflexivity |]. split; [reflexivity |].
  intros name.
  destruct (String.eqb_spec "test_results" name) as [<- | Hne]; [reflexivity |].
  apply String.eqb_neq in Hne.
  unfold e, base_state. cbn [prop_read get_field]. rewrite Hne. reflexivity.
Qed.
End RegistryFacts.

(** ** The panel *)

Module PanelFacts.
Import TurtleGraphics.

Section Facts.
Context {V : Type} `{PanZoom V}.

Ltac unfold_p :=
  unfold fire, on_update, on_resize, capture, restore, getZoom, getPan, destroy, reset,
    zoom, pan, svgPanZoom, record, read_ready, set_ready, set_viewport, lift,
    mbind, P_bind, mret, P_ret.

Lemma added_app (p : panel V) (rd : bool) (vp : option V) (more : list call) :
  added p (mkPanel rd vp (calls p ++ more)) = more.
Proof. unfold added. simpl. apply drop_app_length. Qed.

(** A redraw on ["update"] from the ready state. *)
Lemma update_ready_run (vp : option V) (cs : list call) (states : jsval) (id : nat)
    (s moves : jsval) :
  index_read states id = Ok s →
  prop_read s "moves" = Ok moves →
  let p := mkPanel true vp cs in
  fire (on_update states id) p
  = mkPanel true
      (Some (restored (pz_getZoom (attached p)) (pz_getPan (attached p))))
      (cs ++ [PzGetZoom; PzGetPan; PzDestroy; SvgClear; Draw moves; PzInit panel_options]
          ++ restore_calls (pz_getZoom (attached p)) (pz_getPan (attached p))).
Proof.
  intros Hs Hm p. unfold p, attached, restored, restore_calls. unfold_p. simpl.
  destruct vp as [v |]; simpl; rewrite Hs; simpl; rewrite Hm; simpl.
  - destruct (pz_getZoom v); simpl; rewrite <- !app_assoc; reflexivity.
  - destruct (pz_getZoom (pz_init None)); simpl; rewrite <- !app_assoc; reflexivity.
Qed.

(** A ["resize"] from the ready state. *)
Lemma resize_ready_run (vp : option V) (cs : list call) (w h : number) :
  let p := mkPanel true vp cs in
  fire (on_resize w h) p
  = mkPanel true
      (Some (restored (pz_getZoom (attached p)) (pz_getPan (attached p))))
      (cs ++ [PzGetZoom; PzGetPan; PzDestroy; SvgSize w h; PzInit panel_options]
          ++ restore_calls (pz_getZoom (attached p)) (pz_getPan (attached p))).
Proof.
  intros p. unfold p, attached, restored, restore_calls. unfold_p. simpl.
  destruct vp as [v |]; simpl.
  - destruct (pz_getZoom v); simpl; rewrite <- !app_assoc; reflexivity.
  - destruct (pz_getZoom (pz_init None)); simpl; rewrite <- !app_assoc; reflexivity.
Qed.

(** A first ["update"]: one of three courses, by what [states[id].moves]
    gives. *)
Lemma update_fresh_run (vp : option V) (cs : list call) (states : jsval) (id : nat) :
  let p := mkPanel false vp cs in
  added p (fire (on_update states id) p) = [SvgClear; Uncaught TypeError]
  ∨ ∃ moves,
      added p (fire (on_update states id) p)
      = [SvgClear; Draw moves; PzInit panel_options; PzReset].
Proof.
  intros p. unfold p. unfold_p. simpl.
  destruct (index_read states id) as [s | e] eqn:Hs; simpl.
  - destruct (prop_read s "moves") as [moves | e] eqn:Hm; simpl.
    + right. exists moves.
      destruct vp as [v |]; simpl; rewrite <- !app_assoc;
        apply (added_app (mkPanel false _ cs)).
    + left. assert (e = TypeError) as ->.
      { destruct s; simpl in Hm; congruence. }
      rewrite <- !app_assoc. apply (added_app (mkPanel false vp cs)).
  - left. assert (e = TypeError) as ->.
    { destruct states; simpl in Hs; congruence. }
    rewrite <- !app_assoc. apply (added_app (mkPanel false vp cs)).
Qed.


Lemma not_in_restore_calls (c : call) (z : number) (pn : point) :
  c ≠ PzReset → (∀ a, c ≠ PzZoom a) → (∀ a, c ≠ PzPan a) → c ∉ restore_calls z pn.
Proof.
  intros Hr Hz Hp Hin. unfold restore_calls in Hin.
  destruct (isNaN (Some z)).
  - apply list_elem_of_singleton in Hin. by apply Hr.
  - apply elem_of_cons in Hin as [-> | Hin]; [by apply (Hz (Some z)) |].
    apply list_elem_of_singleton in Hin. by apply (Hp (Some pn)).
Qed.

(** C2, amended. In the ready state an ["update"] captures zoom and pan,
    destroys the controller, clears the SVG, redraws it from
    [states[id].moves], attaches a new controller and brings zoom and pan
    back (or resets, on a zoom that is not a number). A ["resize"] does the
    same around a resize of the SVG to the container: it neither clears nor
    redraws. *)
Theorem ready_update_and_resize (p : panel V) (states : jsval) (id : nat)
    (s moves : jsval) (w h : number) :
  ready p = true →
  index_read states id = Ok s →
  prop_read s "moves" = Ok moves →
  let z := pz_getZoom (attached p) in
  let pn := pz_getPan (attached p) in
  let updated := fire (on_update states id) p in
  let resized := fire (on_resize w h) p in
  added p updated
  = [PzGetZoom; PzGetPan; PzDestroy; SvgClear; Draw moves; PzInit panel_options]
      ++ restore_calls z pn
  ∧ added p resized
    = [PzGetZoom; PzGetPan; PzDestroy; SvgSize w h; PzInit panel_options]
        ++ restore_calls z pn
  ∧ viewport updated = Some (restored z pn)
  ∧ viewport resized = Some (restored z pn)
  ∧ ready updated = true
  ∧ ready resized = true
  ∧ (SvgClear ∉ added p resized)
  ∧ (∀ m, Draw m ∉ added p resized).
Proof.
  intros Hready Hs Hm z pn updated resized.
  destruct p as [rd vp cs]. simpl in Hready. subst rd.
  unfold updated, resized.
  rewrite (update_ready_run vp cs states id s moves Hs Hm), (resize_ready_run vp cs w h).
  cbv zeta. fold z pn.
  rewrite (added_app (mkPanel true vp cs)), (added_app (mkPanel true vp cs)).
  repeat split.
  - intros Hin. apply elem_of_app in Hin as [Hin | Hin].
    + repeat (apply elem_of_cons in Hin as [Hin | Hin]; [discriminate |]).
      by apply elem_of_nil in Hin.
    + by apply (not_in_restore_calls SvgClear z pn).
  - intros m Hin. apply elem_of_app in Hin as [Hin | Hin].
    + repeat (apply elem_of_cons in Hin as [Hin | Hin]; [discriminate |]).
      by apply elem_of_nil in Hin.
    + by apply (not_in_restore_calls (Draw m) z pn).
Qed.

(** C6. Before the first draw ([ready] is false) an ["update"] starts by
    clearing the SVG: it asks the controller for neither zoom nor pan and
    destroys nothing. *)
Theorem first_update_reads_no_viewport (p : panel V) (states : jsval) (id : nat) :
  ready p = false →
  let new := added p (fire (on_update states id) p) in
  (PzGetZoom ∉ new) ∧ (PzGetPan ∉ new) ∧ (PzDestroy ∉ new)
  ∧ ∃ rest, new = SvgClear :: rest.
Proof.
  intros Hready new. destruct p as [rd vp cs]. simpl in Hready. subst rd.
  unfold new.
  destruct (update_fresh_run vp cs states id) as [-> | (moves & ->)].
  - repeat split; try (intros Hin;
      repeat (apply elem_of_cons in Hin as [Hin | Hin]; [discriminate |]);
      by apply elem_of_nil in Hin).
    by eexists.
  - repeat split; try (intros Hin;
      repeat (apply elem_of_cons in Hin as [Hin | Hin]; [discriminate |]);
      by apply elem_of_nil in Hin).
    by eexists.
Qed.

(** C7. A redraw from the ready state, on ["update"] or on ["resize"]: when
    the zoom captured is not a number the new controller is reset and is
    given neither zoom nor pan; otherwise it is given the zoom and the pan
    captured and is not reset. *)
Theorem redraw_restores_or_resets (p : panel V) (states : jsval) (id : nat)
    (s moves : jsval) (w h : number) (after : panel V) :
  ready p = true →
  index_read states id = Ok s →
  prop_read s "moves" = Ok moves →
  after = fire (on_update states id) p ∨ after = fire (on_resize w h) p →
  let z := pz_getZoom (attached p) in
  let pn := pz_getPan (attached p) in
  let fresh := pz_init (Some panel_options) in
  match z with
  | NaN =>
      viewport after = Some (pz_reset fresh)
      ∧ (∃ before, added p after = before ++ [PzInit panel_options; PzReset])
      ∧ (∀ a, PzZoom a ∉ added p after)
      ∧ (∀ a, PzPan a ∉ added p after)
  | Num q =>
      viewport after = Some (pz_pan (Some pn) (pz_zoom (Some (Num q)) fresh))
      ∧ (∃ before,
            added p after
            = before ++ [PzInit panel_options; PzZoom (Some (Num q)); PzPan (Some pn)])
      ∧ PzReset ∉ added p after
  end.
Proof.
  intros Hready Hs Hm Hafter z pn fresh.
  destruct p as [rd vp cs]. simpl in Hready. subst rd.
  assert (∃ mid,
             after = mkPanel true (Some (restored z pn))
                       (cs ++ [PzGetZoom; PzGetPan; PzDestroy] ++ mid
                           ++ [PzInit panel_options] ++ restore_calls z pn)
             ∧ (mid = [SvgClear; Draw moves] ∨ mid = [SvgSize w h]))
    as (mid & -> & Hmid).
  { destruct Hafter as [-> | ->].
    - exists [SvgClear; Draw moves]. split; [| by left].
      apply (update_ready_run vp cs states id s moves Hs Hm).
    - exists [SvgSize w h]. split; [| by right].
      apply (resize_ready_run vp cs w h). }
  rewrite (added_app (mkPanel true vp cs)).
  unfold restored, restore_calls. fold fresh.
  destruct z as [| q] eqn:Hz; simpl.
  - split; [reflexivity |]. split.
    { exists ([PzGetZoom; PzGetPan; PzDestroy] ++ mid). by rewrite <- !app_assoc. }
    split; intros a Hin;
      destruct Hmid as [-> | ->];
      repeat (apply elem_of_cons in Hin as [Hin | Hin]; [discriminate |]);
      by apply elem_of_nil in Hin.
  - split; [reflexivity |]. split.
    { exists ([PzGetZoom; PzGetPan; PzDestroy] ++ mid). by rewrite <- !app_assoc. }
    intros Hin.
    destruct Hmid as [-> | ->];
      repeat (apply elem_of_cons in Hin as [Hin | Hin]; [discriminate |]);
      by apply elem_of_nil in Hin.
Qed.

End Facts.

(** *** Concrete runs *)

(** C2, as stated, fails: in the ready state a ["resize"] neither clears
    the SVG nor redraws it, as an ["update"] does. *)
Lemma resize_does_not_redraw :
  ready zoomed_panel = true
  ∧ added zoomed_panel (dispatch 0 (Resize (Num 10) (Num 20)) zoomed_panel)
    = [PzGetZoom; PzGetPan; PzDestroy; SvgSize (Num 10) (Num 20); PzInit panel_options;
       PzZoom (Some (Num 2)); PzPan (Some (mkPoint (Num 3) (Num 4)))]
  ∧ added zoomed_panel (dispatch 0 (Update one_session) zoomed_panel)
    = [PzGetZoom; PzGetPan; PzDestroy; SvgClear; Draw (JArr [JStr "forward"]);
       PzInit panel_options;
       PzZoom (Some (Num 2)); PzPan (Some (mkPoint (Num 3) (Num 4)))]
  ∧ ¬ (SvgClear ∈ added zoomed_panel (dispatch 0 (Resize (Num 10) (Num 20)) zoomed_panel)
       ∧ Draw (JArr [JStr "forward"])
           ∈ added zoomed_panel (dispatch 0 (Resize (Num 10) (Num 20)) zoomed_panel)).
Proof.
  split; [reflexivity |]. split; [reflexivity |]. split; [reflexivity |].
  intros [Hin _]. vm_compute in Hin.
  repeat (apply elem_of_cons in Hin as [Hin | Hin]; [discriminate |]).
  by apply elem_of_nil in Hin.
Qed.

Lemma ready_update_and_resize_witness :
  ready zoomed_panel = true
  ∧ index_read one_session 0 = Ok (JObj [("moves", JArr [JStr "forward"])])
  ∧ prop_read (JObj [("moves", JArr [JStr "forward"])]) "moves" = Ok (JArr [JStr "forward"])
  ∧ viewport (fire (on_update one_session 0) zoomed_panel)
    = Some (restored (Num 2) (mkPoint (Num 3) (Num 4))).
Proof.
  split; [reflexivity |]. split; [reflexivity |]. split; [reflexivity |].
  destruct (ready_update_and_resize zoomed_panel one_session 0
              (JObj [("moves", JArr [JStr "forward"])]) (JArr [JStr "forward"])
              (Num 10) (Num 20) eq_refl eq_refl eq_refl)
    as (_ & _ & Hviewport & _).
  exact Hviewport.
Defined.

Lemma first_update_reads_no_viewport_witness :
  ready (register (V := plain_viewport) (Num 100) (Num 50) 0) = false
  ∧ PzGetZoom ∉ added (register (Num 100) (Num 50) 0)
                  (fire (on_update one_session 0)
                     (register (V := plain_viewport) (Num 100) (Num 50) 0)).
Proof.
  split; [reflexivity |].
  destruct (first_update_reads_no_viewport
              (register (V := plain_viewport) (Num 100) (Num 50) 0) one_session 0 eq_refl)
    as (Hzoom & _).
  exact Hzoom.
Defined.

Lemma redraw_restores_or_resets_witness :
  ready broken_panel = true
  ∧ index_read one_session 0 = Ok (JObj [("moves", JArr [JStr "forward"])])
  ∧ prop_read (JObj [("moves", JArr [JStr "forward"])]) "moves" = Ok (JArr [JStr "forward"])
  ∧ viewport (fire (on_update one_session 0) broken_panel)
    = Some (pz_reset (pz_init (Some panel_options))).
Proof.
  split; [reflexivity |]. split; [reflexivity |]. split; [reflexivity |].
  destruct (redraw_restores_or_resets broken_panel one_session 0
              (JObj [("moves", JArr [JStr "forward"])]) (JArr [JStr "forward"])
              (Num 10) (Num 20) (fire (on_update one_session 0) broken_panel)
              eq_refl eq_refl eq_refl (or_introl eq_refl))
    as (Hviewport & _).
  exact Hviewport.
Defined.

End PanelFacts.

(** ** Whole runs of the registry *)

Module RegistryRuns.
Import IndexedDB StateHandler RegistryFacts.

(** *** What a load finds *)

Lemma has_key_object (path : string) (k : key) (r : jsval) :
  has_key path k r = true → ∃ props, r = JObj props.
Proof.
  unfold has_key. destruct r; simpl; try discriminate. intros _. by eexists.
Qed.

Lemma index_get_shape (ix : index) (k : key) (rs : list jsval) :
  index_get ix k rs = JUndefined ∨ ∃ props, index_get ix k rs = JObj props.
Proof.
  induction rs as [| r rest IH]; simpl; [by left |].
  destruct (has_key (ix_keyPath ix) k r) eqn:Hr; [| exact IH].
  right. by apply has_key_object in Hr.
Qed.

Lemma found_shape (i : gmap string database) :
  found i = JUndefined ∨ ∃ props, found i = JObj props.
Proof.
  unfold found. destruct (i !! "state") as [d |]; [| by left].
  destruct (db_stores d !! "state") as [os |]; [| by left].
  apply index_get_shape.
Qed.

Lemma found_opened (i : gmap string database) (d : database) (os : object_store) :
  opened i d os → found i = index_get (mkIndex "id" true) (KNum 1) (os_records os).
Proof. intros (Hd & Hos & _). unfold found. by rewrite Hd, Hos. Qed.

Lemma found_stored (i : gmap string database) (v : jsval) :
  stored i v → found i = blob v.
Proof.
  intros (d & os & Hop & Hrs). rewrite (found_opened i d os Hop), Hrs. reflexivity.
Qed.

Lemma found_after_open (i : gmap string database) : found (after_open i) = found i.
Proof.
  unfold after_open. destruct (i !! "state") as [d |] eqn:Hd; [reflexivity |].
  unfold found. rewrite Hd, lookup_insert_eq. simpl. by rewrite lookup_insert_eq.
Qed.

Lemma after_open_twice (i : gmap string database) : after_open (after_open i) = after_open i.
Proof.
  unfold after_open at 1. destruct (after_open i !! "state") eqn:Hd; [reflexivity |].
  unfold after_open in Hd. destruct (i !! "state") eqn:Hi; [congruence |].
  by rewrite lookup_insert_eq in Hd.
Qed.

Lemma well_formed_after_open (i : gmap string database) :
  well_formed i → well_formed (after_open i).
Proof. intros Hwf. right. by apply after_open_opened. Qed.

Lemma load_onsuccess_run (m : jsval) (cb : callback) (r : registry)
    (i : gmap string database) (q : list task) (tr : list event) :
  m = JUndefined ∨ (∃ props, m = JObj props) →
  call (load_onsuccess m cb) (mkWorld r i q tr)
  = mkWorld (load_reg r m) i q (tr ++ load_events cb r m).
Proof.
  intros [-> | (props & ->)].
  - apply load_onsuccess_missing.
  - destruct cb as [| f]; unfold call, load_onsuccess, invoke; unfold_m; simpl;
      rewrite <- ?app_assoc; reflexivity.
Qed.

(** A whole [loadState] over databases as the code finds them. *)
Lemma load_run_general (cb : callback) (r : registry) (i : gmap string database)
    (tr : list event) (n : nat) :
  well_formed i →
  run (2 + n) (call (loadState cb) (mkWorld r i [] tr))
  = mkWorld (load_reg r (found i)) (after_open i) []
      (tr ++ open_events i ++ [Closed "state"] ++ load_events cb r (found i)).
Proof.
  intros Hwf. destruct (after_open_opened i Hwf) as (d & os & Hop).
  rewrite loadState_call.
  change (run (2 + n)) with (fun w => run n (step (step w))). cbv beta.
  rewrite app_nil_l, step_cons.
  rewrite (call_ok _ _ _ (handle_open_load cb r i [] _ Hwf)).
  rewrite app_nil_l, step_cons, (handle_get cb r _ d os _ _ Hop).
  rewrite <- (found_opened _ d os Hop), found_after_open.
  rewrite (load_onsuccess_run _ cb r _ _ _ (found_shape i)), run_idle.
  f_equal. by rewrite <- !app_assoc.
Qed.

Lemma after_put_same (i : gmap string database) (v : jsval) :
  stored i v → after_put v i = i.
Proof.
  intros (d & os & (Hd & Hos & Hk & Hix) & Hrs). unfold after_put.
  rewrite Hd, Hos, Hk, Hrs. simpl.
  apply insert_id. rewrite Hd. f_equal. destruct d as [ver stores]. simpl in *.
  f_equal. symmetry. apply insert_id. rewrite Hos. f_equal.
  destruct os as [path ixs rs]. simpl in *. by subst.
Qed.

Lemma stored_at_most_one (i : gmap string database) (v : jsval) :
  stored i v → at_most_one_blob i.
Proof.
  intros (d & os & Hop & Hrs). right. exists d, os. split; [exact Hop |].
  right. exists (blob v). by split.
Qed.

Lemma stored_well_formed (i : gmap string database) (v : jsval) :
  stored i v → well_formed i.
Proof. intros (d & os & Hop & _). right. eauto. Qed.

Lemma empty_store_well_formed (i : gmap string database) :
  empty_store i → well_formed i.
Proof. intros [Hnone | (d & os & Hop & _)]; [by left | right; eauto]. Qed.

Lemma empty_store_found (i : gmap string database) : empty_store i → found i = JUndefined.
Proof.
  intros [Hnone | (d & os & Hop & Hrs)].
  - unfold found. by rewrite Hnone.
  - by rewrite (found_opened i d os Hop), Hrs.
Qed.

Lemma empty_store_after_open (i : gmap string database) :
  empty_store i → empty_store (after_open i).
Proof.
  intros Hempty. pose proof (empty_store_well_formed i Hempty) as Hwf.
  destruct (after_open_opened i Hwf) as (d & os & Hop).
  right. exists d, os. split; [exact Hop |].
  destruct Hempty as [Hnone | (d' & os' & Hop' & Hrs)].
  - by apply (after_open_records i d os).
  - rewrite (after_open_same i d' (proj1 Hop')) in Hop.
    destruct Hop as (Hd & Hos & _), Hop' as (Hd' & Hos' & _).
    rewrite Hd' in Hd. injection Hd as <-. rewrite Hos' in Hos. by injection Hos as <-.
Qed.

Lemma closings_app (a b : list event) : closings (a ++ b) = closings a + closings b.
Proof.
  induction a as [| e a IH]; simpl; [reflexivity |].
  destruct e; simpl; by rewrite IH.
Qed.

Lemma upgrades_app (a b : list event) : upgrades (a ++ b) = upgrades a + upgrades b.
Proof.
  induction a as [| e a IH]; simpl; [reflexivity |].
  destruct e; simpl; by rewrite IH.
Qed.

(** *** Loading *)

(** X1. When the store holds the record of [v], [loadState] replaces the whole
    of [states] by [v], whatever it was, leaves the rest of the registry and
    the databases alone, and then invokes the callback once, which finds the
    new [states]. *)
Theorem load_found (r : registry) (i : gmap string database) (v : jsval) (f : nat)
    (tr : list event) (n : nat) :
  stored i v →
  let w' := run (2 + n) (call (loadState (CbFun f)) (mkWorld r i [] tr)) in
  reg w' = mkRegistry (var_base_state r) v (var_temp_file r)
  ∧ idb w' = i
  ∧ queue w' = []
  ∧ since (length tr) w' = [Closed "state"; ConsoleLog (LogVal v); Called f v].
Proof.
  intros Hstored w'. unfold w'.
  rewrite (load_run_general (CbFun f) r i tr n (stored_well_formed i v Hstored)).
  rewrite (found_stored i v Hstored), since_app.
  destruct Hstored as (d & os & (Hd & _) & _).
  rewrite (after_open_same i d Hd). unfold open_events. rewrite Hd.
  by repeat split.
Qed.

Lemma load_found_witness :
  stored (idb (run 3 (call (saveState CbUndefined) (fresh_page ∅))))
         (var_states module_init)
  ∧ var_states
      (reg (run 2 (call (loadState (CbFun 4))
         (mkWorld (mkRegistry base_state JNull temp_file)
            (idb (run 3 (call (saveState CbUndefined) (fresh_page ∅)))) [] []))))
    = var_states module_init.
Proof.
  assert (stored (idb (run 3 (call (saveState CbUndefined) (fresh_page ∅))))
            (var_states module_init)) as Hstored.
  { eexists _, _. split; [split; [| split; [| split]] |]; reflexivity. }
  split; [exact Hstored |].
  destruct (load_found (mkRegistry base_state JNull temp_file) _ _ 4 [] 0 Hstored)
    as (Hreg & _).
  exact (f_equal var_states Hreg).
Defined.


Lemma load_reg_twice (r : registry) (m : jsval) : load_reg (load_reg r m) m = load_reg r m.
Proof. by destruct m. Qed.

(** X2. A second [loadState] changes nothing: the registry and the databases
    are what the first load left. *)
Theorem load_idempotent (r : registry) (i : gmap string database)
    (cb cb' : callback) (tr : list event) (n m : nat) :
  well_formed i →
  let once := run (2 + n) (call (loadState cb) (mkWorld r i [] tr)) in
  let twice := run (2 + m) (call (loadState cb') once) in
  reg twice = reg once ∧ idb twice = idb once ∧ queue once = [] ∧ queue twice = [].
Proof.
  intros Hwf once twice. unfold twice, once.
  rewrite (load_run_general cb r i tr n Hwf).
  rewrite (load_run_general cb' _ _ _ m (well_formed_after_open i Hwf)).
  simpl. rewrite found_after_open, load_reg_twice, after_open_twice. by repeat split.
Qed.

Lemma load_idempotent_witness :
  well_formed ∅
  ∧ reg (run 2 (call (loadState (CbFun 2)) (run 2 (call (loadState (CbFun 1)) (fresh_page ∅)))))
    = reg (run 2 (call (loadState (CbFun 1)) (fresh_page ∅))).
Proof.
  assert (well_formed ∅) as Hwf by (left; reflexivity).
  split; [exact Hwf |].
  destruct (load_idempotent module_init ∅ (CbFun 1) (CbFun 2) [] 0 0 Hwf) as (Hreg & _).
  exact Hreg.
Defined.

(** *** Loading only reads the databases *)

Lemma reading_ret {A : Type} (a : A) : reading (mret a).
Proof. intros w. split; [reflexivity |]. exists []. by rewrite app_nil_r. Qed.

Lemma reading_throw {A : Type} (e : error) : reading (@throw A e).
Proof. intros w. split; [reflexivity |]. exists []. by rewrite app_nil_r. Qed.

Lemma reading_lift {A : Type} (x : result A) : reading (lift x).
Proof. intros w. split; [reflexivity |]. exists []. by rewrite app_nil_r. Qed.

Lemma reading_read_idb : reading read_idb.
Proof. intros w. split; [reflexivity |]. exists []. by rewrite app_nil_r. Qed.

Lemma reading_read_states : reading read_states.
Proof. intros w. split; [reflexivity |]. exists []. by rewrite app_nil_r. Qed.

Lemma reading_assign_states (v : jsval) : reading (assign_states v).
Proof. intros w. split; [reflexivity |]. exists []. simpl. by rewrite app_nil_r. Qed.

Lemma reading_emit (e : event) : reading (emit e).
Proof. intros w. split; [reflexivity |]. exists []. simpl. by rewrite app_nil_r. Qed.

Lemma reading_enqueue (t : task) : load_task t → reading (enqueue t).
Proof. intros Ht w. split; [reflexivity |]. exists [t]. split; [reflexivity | by constructor]. Qed.

Lemma reading_bind {A B : Type} (m : M A) (f : A → M B) :
  reading m → (∀ a, reading (f a)) → reading (m ≫= f).
Proof.
  intros Hm Hf w. unfold mbind, M_bind. specialize (Hm w).
  destruct (m w) as [[a | e] w1]; simpl in *; [| exact Hm].
  destruct Hm as (Hi & q & Hq & Hqs). destruct (Hf a w1) as (Hi' & q' & Hq' & Hqs').
  split; [congruence |]. exists (q ++ q').
  split; [by rewrite Hq', Hq, app_assoc | by apply Forall_app].
Qed.

Lemma reading_invoke (cb : callback) : reading (invoke cb).
Proof.
  destruct cb as [| f]; [apply reading_throw |].
  apply reading_bind; [apply reading_read_states | intros s; apply reading_emit].
Qed.

Create HintDb reading.

#[local] Hint Resolve reading_ret reading_throw reading_lift reading_read_idb
  reading_read_states reading_assign_states reading_emit reading_invoke : reading.

Ltac reading_step :=
  first
    [ solve [auto with reading]
    | apply reading_enqueue; exact I
    | apply reading_bind; [| intros ?]
    | match goal with
      | |- reading (match ?x with _ => _ end) => destruct x
      | |- reading (if ?x then _ else _) => destruct x
      end ].

Ltac reading_auto := repeat reading_step.

Lemma reading_find_store (db name : string) : reading (find_store db name).
Proof. unfold find_store. reading_auto. Qed.

Lemma reading_load (db : string) (cb : callback) : reading (load db cb).
Proof.
  pose proof reading_find_store.
  unfold load, db_transaction, tx_objectStore, os_index, ix_get. reading_auto.
Qed.

Lemma reading_load_onsuccess (m : jsval) (cb : callback) : reading (load_onsuccess m cb).
Proof. unfold load_onsuccess, console_log, skip. reading_auto. Qed.

Lemma reading_handle_get (db st name : string) (k : key) (cb : callback) :
  reading (handle (IndexGetRequest db st name k cb)).
Proof.
  pose proof reading_find_store. pose proof reading_load_onsuccess.
  unfold handle, perform_get. reading_auto.
Qed.

Lemma reading_db_onsuccess (db : string) (cb : callback) :
  reading (db_onsuccess db (LoadFrom cb)).
Proof. pose proof reading_load. unfold db_onsuccess, db_close. reading_auto. Qed.

(** The handler of a finished [open], once the database is there. *)
Lemma handle_open (c : db_callback) (r : registry) (i : gmap string database)
    (q : list task) (tr : list event) :
  call (handle (OpenRequest "state" c)) (mkWorld r i q tr)
  = call (db_onsuccess "state" c) (mkWorld r (after_open i) q (tr ++ open_events i)).
Proof.
  unfold call, handle. erewrite bind_ok by apply open_database_run. reflexivity.
Qed.

Lemma reading_call (m : M unit) (w : world) :
  reading m →
  idb (call m w) = idb w ∧ ∃ q, queue (call m w) = queue w ++ q ∧ Forall load_task q.
Proof.
  intros Hm. specialize (Hm w). unfold call.
  by destruct (m w) as [[[] | e] w1].
Qed.

Lemma reading_run (k : nat) (w : world) :
  Forall load_task (queue w) → idb (run k w) = idb w.
Proof.
  revert w. induction k as [| k IH]; intros w Hq; [reflexivity |].
  simpl. destruct w as [r i q tr]. destruct q as [| t rest]; [by apply IH |].
  apply Forall_cons in Hq as [Ht Hrest]. unfold step. simpl.
  destruct t as [| | | db st name key cb]; try done.
  destruct (reading_call (handle (IndexGetRequest db st name key cb))
              (mkWorld r i rest tr) (reading_handle_get db st name key cb))
    as (Hi & q & Hq & Hqs).
  rewrite IH; [exact Hi |]. rewrite Hq. by apply Forall_app.
Qed.

(** X3. [loadState] never writes a record. Whatever the databases hold, once
    the open request has been served they are what they were, but for the
    database and empty store a first open creates; the record under key [1]
    is at every step the one that was there. *)
Theorem load_keeps_databases (r : registry) (i : gmap string database)
    (cb : callback) (tr : list event) (k : nat) :
  let w0 := call (loadState cb) (mkWorld r i [] tr) in
  idb (run (S k) w0) = after_open i ∧ found (idb (run k w0)) = found i.
Proof.
  intros w0.
  assert (idb (step w0) = after_open i ∧ Forall load_task (queue (step w0))) as [Hi Hq].
  { unfold w0. rewrite loadState_call, app_nil_l, step_cons, handle_open.
    destruct (reading_call (db_onsuccess "state" (LoadFrom cb))
                (mkWorld r (after_open i) [] (tr ++ open_events i))
                (reading_db_onsuccess "state" cb))
      as (Hl & q & Hq & Hqs).
    split; [exact Hl | by rewrite Hq]. }
  assert (∀ j, idb (run (S j) w0) = after_open i) as Hall.
  { intros j. change (run (S j) w0) with (run j (step w0)). by rewrite reading_run. }
  split; [apply Hall |].
  destruct k as [| j]; [reflexivity |]. by rewrite Hall, found_after_open.
Qed.


(** *** Opening *)

Lemma load_events_counts (f : nat) (r : registry) (m : jsval) :
  m = JUndefined ∨ (∃ props, m = JObj props) →
  invocations (load_events (CbFun f) r m) = [f]
  ∧ faults (load_events (CbFun f) r m) = []
  ∧ closings (load_events (CbFun f) r m) = 0.
Proof. by intros [-> | (props & ->)]. Qed.

Lemma load_events_upgrades (cb : callback) (r : registry) (m : jsval) :
  upgrades (load_events cb r m) = 0.
Proof. destruct m, cb; reflexivity. Qed.

Lemma open_events_counts (i : gmap string database) :
  closings (open_events i) = 0
  ∧ upgrades (open_events i) = match i !! "state" with None => 1 | Some _ => 0 end.
Proof. unfold open_events. by destruct (i !! "state"). Qed.

(** X4. The upgrade handler, which creates the object store and its index, runs
    during a save or a load exactly when the database did not exist, and
    only once; the database exists afterwards. *)
Theorem upgrade_only_on_first_open (r : registry) (i : gmap string database)
    (cb : callback) (tr : list event) (n : nat) :
  well_formed i →
  let saved := run (3 + n) (call (saveState cb) (mkWorld r i [] tr)) in
  let loaded := run (2 + n) (call (loadState cb) (mkWorld r i [] tr)) in
  let expected := match i !! "state" with None => 1 | Some _ => 0 end in
  upgrades (since (length tr) saved) = expected
  ∧ upgrades (since (length tr) loaded) = expected
  ∧ (∃ d os, opened (idb saved) d os)
  ∧ (∃ d os, opened (idb loaded) d os).
Proof.
  intros Hwf saved loaded expected. unfold saved, loaded.
  rewrite (save_run cb r i tr n Hwf), (load_run_general cb r i tr n Hwf), !since_app.
  destruct (after_open_opened i Hwf) as (d & os & Hop).
  destruct (open_events_counts i) as [_ Hup].
  unfold save_events. rewrite !upgrades_app, Hup, load_events_upgrades.
  split; [destruct cb; simpl; lia |]. split; [simpl; lia |].
  split; [| by exists d, os].
  eexists _, _. apply (after_put_opened (var_states r) _ d os Hop).
Qed.

Lemma upgrade_only_on_first_open_witness :
  well_formed ∅
  ∧ upgrades (since 0 (run 3 (call (saveState CbUndefined) (fresh_page ∅)))) = 1.
Proof.
  assert (well_formed ∅) as Hwf by (left; reflexivity).
  split; [exact Hwf |].
  destruct (upgrade_only_on_first_open module_init ∅ CbUndefined [] 0 Hwf) as (Hup & _).
  exact Hup.
Defined.

(** X5. A save or a load with a function for callback, over databases as the
    code finds them, raises no exception, closes its connection exactly
    once and invokes the callback exactly once. *)
Theorem operations_complete_cleanly (r : registry) (i : gmap string database)
    (f : nat) (tr : list event) (n : nat) :
  well_formed i →
  let saved := since (length tr) (run (3 + n) (call (saveState (CbFun f)) (mkWorld r i [] tr))) in
  let loaded := since (length tr) (run (2 + n) (call (loadState (CbFun f)) (mkWorld r i [] tr))) in
  (faults saved = [] ∧ closings saved = 1 ∧ invocations saved = [f])
  ∧ (faults loaded = [] ∧ closings loaded = 1 ∧ invocations loaded = [f]).
Proof.
  intros Hwf saved loaded. unfold saved, loaded.
  rewrite (save_run (CbFun f) r i tr n Hwf), (load_run_general (CbFun f) r i tr n Hwf).
  rewrite !since_app.
  destruct (open_events_quiet i) as [Hinv Hfaults].
  destruct (open_events_counts i) as [Hclose _].
  destruct (load_events_counts f r (found i) (found_shape i)) as (Hli & Hlf & Hlc).
  unfold save_events.
  rewrite !faults_app, !closings_app, !invocations_app, Hinv, Hfaults, Hclose, Hli, Hlf, Hlc.
  by repeat split.
Qed.

Lemma operations_complete_cleanly_witness :
  well_formed ∅
  ∧ closings (since 0 (run 2 (call (loadState (CbFun 3)) (fresh_page ∅)))) = 1.
Proof.
  assert (well_formed ∅) as Hwf by (left; reflexivity).
  split; [exact Hwf |].
  destruct (operations_complete_cleanly module_init ∅ 3 [] 0 Hwf) as (_ & _ & Hclose & _).
  exact Hclose.
Defined.

(** *** A database without the object store *)

(** X6. Over a database ["state"] that lacks the object store, [saveState] and
    [loadState] stop at [db.transaction] with an uncaught [NotFoundError]:
    nothing is written or loaded, the callback is never invoked and
    [db.close()] is not reached, however long the event loop runs. *)
Theorem store_missing_stalls (r : registry) (i : gmap string database)
    (cb : callback) (tr : list event) (k : nat) :
  store_missing i →
  run (S k) (call (saveState cb) (mkWorld r i [] tr))
  = mkWorld r i [] (tr ++ [ConsoleLog (LogStr "Starting save!"); Uncaught NotFoundError])
  ∧ run (S k) (call (loadState cb) (mkWorld r i [] tr))
    = mkWorld r i [] (tr ++ [Uncaught NotFoundError]).
Proof.
  intros (d & Hd & Hos).
  assert (∀ c q tr', db_transaction "state" "state" c (mkWorld r i q tr')
                     = (Throw NotFoundError, mkWorld r i q tr')) as Htx.
  { intros c q tr'. unfold db_transaction, find_store. unfold_m. simpl.
    by rewrite Hd, Hos. }
  split.
  - rewrite saveState_call. change (run (S k) ?w) with (run k (step w)).
    rewrite app_nil_l, step_cons, handle_open, (after_open_same i d Hd).
    unfold open_events. rewrite Hd, app_nil_r.
    unfold call, db_onsuccess, store. unfold mbind, M_bind. rewrite Htx.
    cbn [reg idb queue trace]. rewrite run_idle. by rewrite <- app_assoc.
  - rewrite loadState_call. change (run (S k) ?w) with (run k (step w)).
    rewrite app_nil_l, step_cons, handle_open, (after_open_same i d Hd).
    unfold open_events. rewrite Hd, app_nil_r.
    unfold call, db_onsuccess, load. unfold mbind, M_bind. rewrite Htx.
    cbn [reg idb queue trace]. by rewrite run_idle.
Qed.

Lemma store_missing_stalls_witness :
  store_missing (<["state" := mkDb 1 ∅]> ∅)
  ∧ run 5 (call (loadState (CbFun 1)) (mkWorld module_init (<["state" := mkDb 1 ∅]> ∅) [] []))
    = mkWorld module_init (<["state" := mkDb 1 ∅]> ∅) [] [Uncaught NotFoundError].
Proof.
  assert (store_missing (<["state" := mkDb 1 ∅]> ∅)) as Hmissing.
  { exists (mkDb 1 ∅). split; reflexivity. }
  split; [exact Hmissing |].
  destruct (store_missing_stalls module_init _ (CbFun 1) [] 4 Hmissing) as (_ & Hload).
  exact Hload.
Defined.

(** *** Loads and saves in sequence *)

(** X7. A load followed by a save writes back what was loaded: over a store
    that holds the record of [v], the databases end as they were and
    [states] is [v]. *)
Theorem load_then_save (r : registry) (i : gmap string database) (v : jsval)
    (cb cb' : callback) (tr : list event) (n m : nat) :
  stored i v →
  let loaded := run (2 + n) (call (loadState cb) (mkWorld r i [] tr)) in
  let saved := run (3 + m) (call (saveState cb') loaded) in
  idb saved = i ∧ var_states (reg saved) = v ∧ queue saved = [].
Proof.
  intros Hstored loaded saved. unfold saved, loaded.
  pose proof (stored_well_formed i v Hstored) as Hwf.
  destruct Hstored as (d & os & Hop & Hrs).
  rewrite (load_run_general cb r i tr n Hwf).
  rewrite (save_run cb' _ _ _ m (well_formed_after_open i Hwf)).
  rewrite after_open_twice, (after_open_same i d (proj1 Hop)).
  rewrite (found_opened i d os Hop), Hrs. simpl.
  split; [| by split]. apply after_put_same. by exists d, os.
Qed.

Lemma load_then_save_witness :
  stored (idb (run 3 (call (saveState CbUndefined) (fresh_page ∅))))
         (var_states module_init)
  ∧ idb (run 3 (call (saveState CbUndefined)
           (run 2 (call (loadState (CbFun 1))
              (mkWorld (mkRegistry base_state JNull temp_file)
                 (idb (run 3 (call (saveState CbUndefined) (fresh_page ∅)))) [] [])))))
    = idb (run 3 (call (saveState CbUndefined) (fresh_page ∅))).
Proof.
  assert (stored (idb (run 3 (call (saveState CbUndefined) (fresh_page ∅))))
            (var_states module_init)) as Hstored.
  { eexists _, _. split; [split; [| split; [| split]] |]; reflexivity. }
  split; [exact Hstored |].
  destruct (load_then_save (mkRegistry base_state JNull temp_file) _ _
              (CbFun 1) CbUndefined [] 0 0 Hstored) as (Hidb & _).
  exact Hidb.
Defined.

Lemma holds_step (c : cache) (w : world) (o : op) :
  holds c w → holds (cache_step c o) (perform w o).
Proof.
  destruct w as [r i q tr]. intros (Hstates & Hq & Hblob). simpl in Hstates, Hq, Hblob.
  subst q.
  assert (at_most_one_blob i ∧ well_formed i) as [Hone Hwf].
  { destruct (persisted c) as [v |].
    - split; [by apply (stored_at_most_one i v) | by apply (stored_well_formed i v)].
    - split; [| by apply empty_store_well_formed].
      destruct Hblob as [Hnone | (d & os & Hop & Hrs)]; [by left |].
      right. exists d, os. split; [exact Hop | by left]. }
  destruct o as [cb | cb | v]; unfold perform, cache_step.
  - pose proof (save_run cb r i tr 0 Hwf) as Hrun. change (3 + 0) with 3 in Hrun.
    rewrite Hrun.
    split; [exact Hstates |]. split; [reflexivity |]. simpl.
    rewrite <- Hstates. by apply after_put_stored.
  - pose proof (load_run_general cb r i tr 0 Hwf) as Hrun. change (2 + 0) with 2 in Hrun.
    rewrite Hrun.
    destruct (persisted c) as [v |] eqn:Hp; simpl.
    + rewrite (found_stored i v Hblob). simpl.
      split; [reflexivity |]. split; [reflexivity |].
      destruct Hblob as (d & os & Hop & Hrs).
      rewrite (after_open_same i d (proj1 Hop)). by exists d, os.
    + rewrite (empty_store_found i Hblob). simpl.
      split; [exact Hstates |]. split; [reflexivity |].
      rewrite Hp. by apply empty_store_after_open.
  - split; [reflexivity |]. split; [reflexivity | exact Hblob].
Qed.

(** X8. Saves, loads and assignments to [states], each finished before the
    next starts, behave as a cache over one key: from a fresh page over an
    origin without database, after any sequence of them [states] and the
    persisted record are those of the cache, in which a save copies memory
    to the store, a load copies the store (if it holds something) to memory
    and an assignment changes memory only. *)
Theorem sequence_behaves_as_cache (ops : list op) :
  holds (fold_left cache_step ops (mkCache (var_states module_init) None))
        (fold_left perform ops (fresh_page ∅)).
Proof.
  assert (holds (mkCache (var_states module_init) None) (fresh_page ∅)) as Hinit.
  { split; [reflexivity |]. split; [reflexivity |]. left. reflexivity. }
  revert Hinit. generalize (mkCache (var_states module_init) None), (fresh_page ∅).
  induction ops as [| o ops IH]; intros c w Hholds; simpl; [exact Hholds |].
  apply IH. by apply holds_step.
Qed.


(** *** When the saved value is read *)

(** X9. [saveState] reads [states] when the database has opened, not when it
    is called, and what it writes is a copy made at that moment. A change of
    [states] made right after the call is therefore what gets saved, and a
    change made after the database has opened is not saved, although the
    callback already finds it. *)
Theorem save_reads_states_at_open (r : registry) (i : gmap string database)
    (v' : jsval) (f : nat) (tr : list event) (n : nat) :
  at_most_one_blob i →
  let called := call (saveState (CbFun f)) (mkWorld r i [] tr) in
  let early := run (3 + n) (call (assign_states v') called) in
  let late := run (2 + n) (call (assign_states v') (run 1 called)) in
  stored (idb early) v'
  ∧ invocations (since (length tr) early) = [f]
  ∧ stored (idb late) (var_states r)
  ∧ var_states (reg late) = v'
  ∧ (∃ before, since (length tr) late = before ++ [Called f v']).
Proof.
  intros Hone called early late.
  assert (well_formed i) as Hwf.
  { destruct Hone as [Hnone | (d & os & Hop & _)]; [by left | right; eauto]. }
  destruct (after_open_opened i Hwf) as (d & os & Hop).
  set (r' := mkRegistry (var_base_state r) v' (var_temp_file r)).
  assert (early = mkWorld r' (after_put v' (after_open i)) []
                    (tr ++ save_events i (CbFun f) v')) as ->.
  { unfold early, called. rewrite saveState_call.
    change (call (assign_states v') _)
      with (call (saveState (CbFun f)) (mkWorld r' i [] tr)).
    apply (save_run (CbFun f) r' i tr n Hwf). }
  assert (late = mkWorld r' (after_put (var_states r) (after_open i)) []
                   ((((tr ++ [ConsoleLog (LogStr "Starting save!")]) ++ open_events i)
                       ++ [Closed "state"])
                      ++ [Committed "state"; ConsoleLog (LogStr "Save complete!")]
                      ++ [ConsoleLog (LogCallback (CbFun f)); Called f v'])) as ->.
  { unfold late. change (run 1 called) with (step called). unfold called.
    rewrite (proj1 (save_trajectory (CbFun f) r i tr Hwf)).
    change (call (assign_states v') (mkWorld r ?j ?q ?t)) with (mkWorld r' j q t).
    change (run (2 + n)) with (fun w => run n (step (step w))). cbv beta.
    rewrite step_cons.
    rewrite (call_ok _ _ _ (perform_put_run (var_states r) r' _ d os _ _ Hop)).
    by rewrite step_cons, handle_complete, run_idle. }
  simpl idb. simpl reg. rewrite since_app.
  split; [by apply after_put_stored |].
  split.
  { unfold save_events. rewrite !invocations_app.
    by destruct (open_events_quiet i) as [-> _]. }
  split; [by apply after_put_stored |]. split; [reflexivity |].
  unfold since. simpl trace. rewrite <- !app_assoc, drop_app_length.
  exists ([ConsoleLog (LogStr "Starting save!")] ++ open_events i
            ++ [Closed "state"; Committed "state"; ConsoleLog (LogStr "Save complete!");
                ConsoleLog (LogCallback (CbFun f))]).
  by rewrite <- !app_assoc.
Qed.

Lemma save_reads_states_at_open_witness :
  at_most_one_blob ∅
  ∧ stored (idb (run 3 (call (assign_states JNull)
                     (call (saveState (CbFun 1)) (fresh_page ∅))))) JNull.
Proof.
  assert (at_most_one_blob ∅) as Hone by (left; reflexivity).
  split; [exact Hone |].
  destruct (save_reads_states_at_open module_init ∅ JNull 1 [] 0 Hone) as (Hearly & _).
  exact Hearly.
Defined.

End RegistryRuns.

(** ** Sequences of panel events *)

Module PanelRuns.
Import TurtleGraphics PanelFacts.

Section Runs.
Context {V : Type} `{PanZoom V}.

Ltac unfold_p :=
  unfold fire, on_update, on_resize, on_reset, on_shown, capture, restore, getZoom, getPan,
    destroy, reset, zoom, pan, svgPanZoom, record, read_ready, set_ready, set_viewport, lift,
    mbind, P_bind, mret, P_ret.

(** A first ["update"] with readable [states]. *)
Lemma update_fresh_ok (vp : option V) (cs : list call) (states : jsval) (id : nat)
    (s moves : jsval) :
  index_read states id = Ok s →
  prop_read s "moves" = Ok moves →
  let p := mkPanel false vp cs in
  fire (on_update states id) p
  = mkPanel true (Some (pz_reset (attached_or_new p)))
      (cs ++ [SvgClear; Draw moves; PzInit panel_options; PzReset]).
Proof.
  intros Hs Hm p. unfold p, attached_or_new. unfold_p. simpl.
  rewrite Hs. simpl. rewrite Hm. simpl.
  destruct vp as [v |]; simpl; rewrite <- !app_assoc; reflexivity.
Qed.

(** An ["update"] whose [states[id].moves] cannot be read. *)
Lemma update_unreadable_run (p : panel V) (states : jsval) (id : nat) :
  ¬ readable states id →
  fire (on_update states id) p
  = mkPanel true
      (if ready p then None else viewport p)
      (calls p ++ (if ready p then [PzGetZoom; PzGetPan; PzDestroy] else [])
               ++ [SvgClear; Uncaught TypeError]).
Proof.
  intros Hno. destruct p as [rd vp cs]. unfold_p. simpl.
  assert (match index_read states id with
          | Ok s => prop_read s "moves" = Throw TypeError
          | Throw e => e = TypeError
          end) as Hread.
  { destruct (index_read states id) as [s | e] eqn:Hs.
    - destruct (prop_read s "moves") as [m | e] eqn:Hm.
      + destruct Hno. by exists s, m.
      + destruct s; simpl in Hm; congruence.
    - destruct states; simpl in Hs; congruence. }
  destruct rd; simpl.
  - destruct vp as [v |]; simpl;
      destruct (index_read states id) as [s | e]; simpl;
      [rewrite Hread | rewrite Hread | rewrite Hread | rewrite Hread];
      simpl; rewrite <- !app_assoc; reflexivity.
  - destruct (index_read states id) as [s | e]; simpl;
      [rewrite Hread | rewrite Hread]; simpl; rewrite <- !app_assoc; reflexivity.
Qed.

(** A ["resize"] before the first draw. *)
Lemma resize_fresh_run (vp : option V) (cs : list call) (w h : number) :
  let p := mkPanel false vp cs in
  fire (on_resize w h) p
  = mkPanel true (Some (pz_reset (attached_or_new p)))
      (cs ++ [SvgSize w h; PzInit panel_options; PzReset]).
Proof.
  intros p. unfold p, attached_or_new. unfold_p. simpl.
  destruct vp as [v |]; simpl; rewrite <- !app_assoc; reflexivity.
Qed.

Lemma reset_run (p : panel V) :
  fire on_reset p = mkPanel (ready p) (Some (pz_reset (attached p))) (calls p ++ [PzReset]).
Proof. destruct p as [rd [v |] cs]; reflexivity. Qed.

Lemma shown_run (p : panel V) :
  fire on_shown p = mkPanel (ready p) (viewport p) (calls p ++ [RequestUpdate]).
Proof. destruct p as [rd vp cs]; reflexivity. Qed.

Lemma readable_dec (states : jsval) (id : nat) : readable states id ∨ ¬ readable states id.
Proof.
  unfold readable. destruct (index_read states id) as [s | e] eqn:Hs.
  - destruct (prop_read s "moves") as [m | e] eqn:Hm.
    + left. by exists s, m.
    + right. intros (s' & m' & Hs' & Hm'). congruence.
  - right. intros (s' & m' & Hs' & _). congruence.
Qed.

Lemma ready_after (id : nat) (e : event) (p : panel V) :
  ready (dispatch id e p) = ready p || is_redraw e.
Proof.
  destruct e as [states | | w h |]; cbn [dispatch is_redraw].
  - rewrite orb_true_r. destruct (readable_dec states id) as [(s & m & Hs & Hm) | Hno].
    + destruct p as [[] vp cs].
      * by rewrite (update_ready_run vp cs states id s m Hs Hm).
      * by rewrite (update_fresh_ok vp cs states id s m Hs Hm).
    + by rewrite (update_unreadable_run p states id Hno).
  - rewrite reset_run. simpl. by rewrite orb_false_r.
  - rewrite orb_true_r. destruct p as [[] vp cs].
    + by rewrite (resize_ready_run vp cs w h).
    + by rewrite (resize_fresh_run vp cs w h).
  - rewrite shown_run. simpl. by rewrite orb_false_r.
Qed.

(** X10. The [ready] flag is set by ["update"] and ["resize"] and by nothing
    else, and nothing clears it: after any sequence of events the panel is
    ready exactly when it was ready before or the sequence holds an
    ["update"] or a ["resize"], also when an ["update"] failed. *)
Theorem ready_is_permanent (id : nat) (es : list event) (p : panel V) :
  ready (run_events id es p) = ready p || existsb is_redraw es.
Proof.
  unfold run_events. revert p. induction es as [| e es IH]; intros p; simpl.
  - by rewrite orb_false_r.
  - by rewrite IH, ready_after, orb_assoc.
Qed.

(** X11. A ["resize"] before the first draw asks the controller for neither zoom
    nor pan and draws nothing: it resizes the SVG, keeps the controller
    attached (or attaches one with the panel's options), resets it and
    leaves the panel ready. *)
Theorem first_resize (p : panel V) (w h : number) :
  ready p = false →
  let p' := fire (on_resize w h) p in
  added p p' = [SvgSize w h; PzInit panel_options; PzReset]
  ∧ viewport p' = Some (pz_reset (attached_or_new p))
  ∧ ready p' = true.
Proof.
  intros Hready p'. destruct p as [rd vp cs]. simpl in Hready. subst rd.
  unfold p'. rewrite (resize_fresh_run vp cs w h).
  split; [apply (added_app (mkPanel false vp cs)) | by split].
Qed.

(** X12. An ["update"] for which [states[id].moves] cannot be read ([states[id]]
    is missing) fails with a [TypeError] after the SVG is cleared and the
    panel marked ready: nothing is drawn and no controller is attached, and
    from the ready state the one that was attached has been destroyed. *)
Theorem update_without_state (p : panel V) (states : jsval) (id : nat) :
  ¬ readable states id →
  let p' := fire (on_update states id) p in
  ready p' = true
  ∧ viewport p' = (if ready p then None else viewport p)
  ∧ added p p'
    = (if ready p then [PzGetZoom; PzGetPan; PzDestroy] else [])
        ++ [SvgClear; Uncaught TypeError].
Proof.
  intros Hno p'. unfold p'. rewrite (update_unreadable_run p states id Hno).
  split; [reflexivity |]. split; [reflexivity |]. apply added_app.
Qed.

(** X13. A ready panel keeps a controller attached as long as every ["update"]
    can read [states[id].moves]. *)
Theorem controller_stays_attached (id : nat) (es : list event) (p : panel V) :
  attached_when_ready p →
  Forall (event_ok id) es →
  attached_when_ready (run_events id es p).
Proof.
  unfold run_events. intros Hp Hes. revert p Hp.
  induction Hes as [| e es He _ IH]; intros p Hp; simpl; [exact Hp |].
  apply IH. unfold attached_when_ready.
  destruct e as [states | | w h |]; cbn [dispatch event_ok] in *.
  - destruct He as (s & m & Hs & Hm). destruct p as [[] vp cs].
    + by rewrite (update_ready_run vp cs states id s m Hs Hm).
    + by rewrite (update_fresh_ok vp cs states id s m Hs Hm).
  - by rewrite reset_run.
  - destruct p as [[] vp cs].
    + by rewrite (resize_ready_run vp cs w h).
    + by rewrite (resize_fresh_run vp cs w h).
  - rewrite shown_run. exact Hp.
Qed.


(** X14. A ["reset"] that comes before the first ["update"] attaches a controller
    with the library's default options, and the first ["update"] then keeps
    that controller: the panel's options are not applied, as they are when
    the ["update"] comes first. *)
Theorem reset_before_first_update (cs : list call) (states : jsval) (id : nat)
    (s moves : jsval) :
  index_read states id = Ok s →
  prop_read s "moves" = Ok moves →
  let p := mkPanel false None cs in
  let direct := dispatch id (Update states) p in
  let late := dispatch id (Update states) (dispatch id ViewReset p) in
  viewport direct = Some (pz_reset (pz_init (Some panel_options)))
  ∧ viewport late = Some (pz_reset (pz_reset (pz_init None)))
  ∧ added p late = [PzReset; SvgClear; Draw moves; PzInit panel_options; PzReset].
Proof.
  intros Hs Hm p direct late. unfold direct, late, p, dispatch.
  rewrite reset_run. cbn [ready viewport calls attached].
  rewrite (update_fresh_ok None cs states id s moves Hs Hm).
  rewrite (update_fresh_ok _ _ states id s moves Hs Hm).
  split; [reflexivity |]. split; [reflexivity |].
  rewrite <- app_assoc. apply (added_app (mkPanel false None cs)).
Qed.

End Runs.

(** *** Concrete runs *)

Lemma controller_stays_attached_witness :
  attached_when_ready (register (V := plain_viewport) (Num 100) (Num 50) 0)
  ∧ Forall (event_ok 0) [ViewReset; Update one_session; Resize (Num 10) (Num 20); PanelShown]
  ∧ attached_when_ready
      (run_events 0 [ViewReset; Update one_session; Resize (Num 10) (Num 20); PanelShown]
         (register (V := plain_viewport) (Num 100) (Num 50) 0)).
Proof.
  assert (attached_when_ready (register (V := plain_viewport) (Num 100) (Num 50) 0)) as Hp
    by (intros Hr; discriminate Hr).
  assert (Forall (event_ok 0)
            [ViewReset; Update one_session; Resize (Num 10) (Num 20); PanelShown]) as Hes.
  { repeat constructor. eexists _, _. split; reflexivity. }
  split; [exact Hp |]. split; [exact Hes |].
  exact (controller_stays_attached 0 _ _ Hp Hes).
Defined.

Lemma reset_before_first_update_witness :
  index_read one_session 0 = Ok (JObj [("moves", JArr [JStr "forward"])])
  ∧ prop_read (JObj [("moves", JArr [JStr "forward"])]) "moves" = Ok (JArr [JStr "forward"])
  ∧ viewport (dispatch 0 (Update one_session)
                (dispatch 0 ViewReset (mkPanel (V := plain_viewport) false None [])))
    = Some (pz_reset (pz_reset (pz_init None))).
Proof.
  split; [reflexivity |]. split; [reflexivity |].
  destruct (reset_before_first_update (V := plain_viewport) [] one_session 0
              (JObj [("moves", JArr [JStr "forward"])]) (JArr [JStr "forward"])
              eq_refl eq_refl)
    as (_ & Hlate & _).
  exact Hlate.
Defined.

Lemma first_resize_witness :
  ready (register (V := plain_viewport) (Num 100) (Num 50) 0) = false
  ∧ ready (fire (on_resize (Num 10) (Num 20))
             (register (V := plain_viewport) (Num 100) (Num 50) 0)) = true.
Proof.
  split; [reflexivity |].
  destruct (first_resize (register (V := plain_viewport) (Num 100) (Num 50) 0)
              (Num 10) (Num 20) eq_refl)
    as (_ & _ & Hready).
  exact Hready.
Defined.

Lemma update_without_state_witness :
  ¬ readable one_session 3
  ∧ viewport (fire (on_update one_session 3) zoomed_panel) = None.
Proof.
  assert (¬ readable one_session 3) as Hno.
  { intros (s & m & Hs & Hm). vm_compute in Hs. injection Hs as <-. discriminate Hm. }
  split; [exact Hno |].
  destruct (update_without_state zoomed_panel one_session 3 Hno) as (_ & Hviewport & _).
  exact Hviewport.
Defined.

End PanelRuns.
